(** * Elevation analysis: the alignment / differencing / integration pipeline

    A shallow embedding of [processData] from
    [src/components/ElevationAnalysis.js] and the properties of its
    per-site results.

    Numbers.  JavaScript numbers are modelled by exact rationals in
    canonical form ([Qc]): every finite double is a rational, and the
    development reasons about the arithmetic the code writes down, not
    about the rounding error of binary64.  [null] is [None]; a [null]
    used as an operand of [-] or [+] is coerced to [0], as JavaScript
    does ([toNumber]).

    Objects used as dictionaries are association lists in insertion
    order: none of the property names the code creates is an array
    index, so [Object.values] enumerates in insertion order, and an
    assignment to an existing name keeps the position of the name. *)

From Stdlib Require Import String Ascii DecimalString DecimalZ.
From Stdlib Require Import List Bool Arith ZArith QArith Qcanon Qround Lia.
From Stdlib Require Import Permutation Sorted Lqa PrimFloat.
Import ListNotations.

Set Implicit Arguments.

(** ** Numbers *)

Abbreviation num := Qc.

Definition Qc_ltb (x y : Qc) : bool :=
  match (x ?= y)%Qc with Lt => true | _ => false end.

Definition Qc_leb (x y : Qc) : bool :=
  match (x ?= y)%Qc with Gt => false | _ => true end.

(** [null] coerced by an arithmetic operator. *)
Definition toNumber (v : option num) : num :=
  match v with Some x => x | None => 0%Qc end.

Definition ofZ (n : Z) : num := Q2Qc (inject_Z n).
Definition two : num := ofZ 2.

(** ** [Number.prototype.toFixed(3)]

    ECMAScript: let [s] be "-" and negate [x] when [x < 0]; if
    [x >= 10^21] the digits are [ToString x]; otherwise they are the
    decimal digits of the integer [n] for which [n / 10^3 - x] is as
    close to zero as possible (the larger [n] when there are two), with
    a point before the last three.  The resulting string is determined
    by, and determines, the sign together with [n] (or with [x] in the
    large case), which is what [FixedStr] records. *)

Inductive FixedStr : Type :=
| Digits (neg : bool) (n : Z)
| Large (neg : bool) (x : num).

Definition toFixed3 (x : num) : FixedStr :=
  let neg := Qc_ltb x 0%Qc in
  let ax := if neg then (- x)%Qc else x in
  if Qc_leb (ofZ (10 ^ 21)) ax then Large neg ax
  else Digits neg (Qfloor (ax * ofZ 1000 + Q2Qc (1 # 2))%Qc).

Definition FixedStr_eq_dec (a b : FixedStr) : {a = b} + {a <> b}.
Proof.
  decide equality; try apply Qc_eq_dec; try apply Z.eq_dec; apply bool_dec.
Defined.

(** ** Records *)

Module Row.
Record t : Type := mk
  { site : string; year : Z; distAlong : num; elevation : num }.
End Row.

Module Point.
Record t : Type := mk
  { distAlong : num;
    elev2021 : option num;
    elev2024 : option num;
    diff : option num }.
End Point.

Module DiffPt.
Record t : Type := mk { distAlong : num; difference : option num }.
End DiffPt.

Module IntPt.
Record t : Type := mk { distAlong : num; integral : num }.
End IntPt.

(** ** Objects as dictionaries *)

Section Obj.
Variables (K V : Type).
Variable K_eq_dec : forall a b : K, {a = b} + {a <> b}.

Definition Obj := list (K * V).

(** [o[k]]: [None] stands for [undefined]. *)
Fixpoint get (k : K) (o : Obj) : option V :=
  match o with
  | [] => None
  | (k', v) :: o' => if K_eq_dec k k' then Some v else get k o'
  end.

(** [o[k] = v]. *)
Fixpoint set (k : K) (v : V) (o : Obj) : Obj :=
  match o with
  | [] => [(k, v)]
  | (k', v') :: o' =>
      if K_eq_dec k k' then (k, v) :: o' else (k', v') :: set k v o'
  end.

Definition keys (o : Obj) : list K := map fst o.
Definition values (o : Obj) : list V := map snd o.
End Obj.

Arguments get {K V} K_eq_dec k o.
Arguments set {K V} K_eq_dec k v o.
Arguments keys {K V} o.
Arguments values {K V} o.

(** ** [Array.prototype.sort] with a comparator

    The sort is stable and the comparators used here are consistent, so
    its result is the one of any stable sort; a stable insertion sort is
    used.  [cmp a b > 0] puts [a] after [b]. *)

Section Sort.
Variable A : Type.
Variable cmp : A -> A -> num.

Fixpoint insert (x : A) (l : list A) : list A :=
  match l with
  | [] => [x]
  | y :: l' =>
      if Qc_ltb 0%Qc (cmp x y) then y :: insert x l' else x :: y :: l'
  end.

Definition sort (l : list A) : list A := fold_right insert [] l.
End Sort.

(** ** Grouping and the site set *)

(** The template literal [`${row.site}_${row.year}`]. *)
Definition showZ (z : Z) : string := NilEmpty.string_of_int (Z.to_int z).

Definition siteYearKey (site : string) (year : Z) : string :=
  (site ++ "_" ++ showZ year)%string.

Definition groupKey (row : Row.t) : string :=
  siteYearKey (Row.site row) (Row.year row).

(** lodash [_.groupBy]: each element is appended to the array stored
    under its key. *)
Definition groupBy (A : Type) (f : A -> string) (l : list A)
  : Obj string (list A) :=
  fold_left
    (fun acc x =>
       match get string_dec (f x) acc with
       | Some g => set string_dec (f x) (g ++ [x]) acc
       | None => set string_dec (f x) [x] acc
       end)
    l [].

(** [[...new Set(xs)]]: the distinct elements in order of first
    appearance. *)
Definition uniq (xs : list string) : list string :=
  fold_left
    (fun acc s => if existsb (String.eqb s) acc then acc else acc ++ [s])
    xs [].

(** [x || []] *)
Definition orEmpty (A : Type) (x : option (list A)) : list A :=
  match x with Some l => l | None => [] end.

(** ** The per-site computation *)

Definition byDistRow (a b : Row.t) : num :=
  (Row.distAlong a - Row.distAlong b)%Qc.

Definition byDistPoint (a b : Point.t) : num :=
  (Point.distAlong a - Point.distAlong b)%Qc.

Definition MatchTable := Obj FixedStr Point.t.

(** Body of [data2021.forEach]. *)
Definition step2021 (matchedPoints : MatchTable) (row : Row.t) : MatchTable :=
  let roundedDist := toFixed3 (Row.distAlong row) in
  set FixedStr_eq_dec roundedDist
    (Point.mk (Row.distAlong row) (Some (Row.elevation row)) None None)
    matchedPoints.

(** Body of [data2024.forEach]. *)
Definition step2024 (matchedPoints : MatchTable) (row : Row.t) : MatchTable :=
  let roundedDist := toFixed3 (Row.distAlong row) in
  match get FixedStr_eq_dec roundedDist matchedPoints with
  | Some p =>
      set FixedStr_eq_dec roundedDist
        (Point.mk (Point.distAlong p) (Point.elev2021 p)
           (Some (Row.elevation row))
           (Some (Row.elevation row - toNumber (Point.elev2021 p))%Qc))
        matchedPoints
  | None =>
      set FixedStr_eq_dec roundedDist
        (Point.mk (Row.distAlong row) None (Some (Row.elevation row)) None)
        matchedPoints
  end.

Definition table2021 (data2021 : list Row.t) : MatchTable :=
  fold_left step2021 data2021 [].

Definition matchedPoints (data2021 data2024 : list Row.t) : MatchTable :=
  fold_left step2024 data2024 (table2021 data2021).

Definition isSome (A : Type) (o : option A) : bool :=
  match o with Some _ => true | None => false end.

Definition bothYears (point : Point.t) : bool :=
  isSome (Point.elev2021 point) && isSome (Point.elev2024 point).

Definition matchedPointsArray (data2021 data2024 : list Row.t)
  : list Point.t :=
  sort byDistPoint
    (filter bothYears (values (matchedPoints data2021 data2024))).

Definition differences (arr : list Point.t) : list DiffPt.t :=
  map (fun point => DiffPt.mk (Point.distAlong point) (Point.diff point)) arr.

(** A small error monad: [None] is a thrown [TypeError]. *)
Definition bind (A B : Type) (m : option A) (f : A -> option B) : option B :=
  match m with Some a => f a | None => None end.

Notation "x <- m ;; k" := (bind m (fun x => k))
  (at level 61, m at next level, right associativity).

(** The [map] callback of the integral, with the closure variable
    [runningSum] threaded through; [arr[index-1]] is a lookup that
    yields [undefined] out of range, on which reading [.distAlong]
    throws. *)
Fixpoint integralLoop (arr : list Point.t) (index : nat) (runningSum : num)
    (todo : list Point.t) : option (list IntPt.t) :=
  match todo with
  | [] => Some []
  | point :: todo' =>
      runningSum' <-
        (if (0 <? index)%nat then
           prev <- nth_error arr (index - 1) ;;
           let actualDx := (Point.distAlong point - Point.distAlong prev)%Qc in
           let avgDiff :=
             ((toNumber (Point.diff point) + toNumber (Point.diff prev)) / two)%Qc in
           Some (runningSum + avgDiff * actualDx)%Qc
         else Some runningSum) ;;
      rest <- integralLoop arr (S index) runningSum' todo' ;;
      Some (IntPt.mk (Point.distAlong point) runningSum' :: rest)
  end.

Definition integrate (arr : list Point.t) : option (list IntPt.t) :=
  integralLoop arr 0 0%Qc arr.

(** ** [processData]

    The result is the object handed to [setData]; its constant fields
    [isLoading: false] and [error: null], and the call to
    [setSelectedSites], play no part in the computed series. *)

Module Years.
Record t : Type := mk { y2021 : list Row.t; y2024 : list Row.t }.
End Years.

Record Snapshot : Type := mkSnapshot
  { byYearSite : Obj string Years.t;
    differencesBySite : Obj string (list DiffPt.t);
    integralBySite : Obj string (list IntPt.t);
    sites : list string }.

Definition profile (bySiteYear : Obj string (list Row.t)) (site : string)
    (year : Z) : list Row.t :=
  sort byDistRow (orEmpty (get string_dec (siteYearKey site year) bySiteYear)).

(** Body of [sites.forEach]. *)
Definition siteStep (bySiteYear : Obj string (list Row.t))
    (acc : Snapshot) (site : string) : option Snapshot :=
  let data2021 := profile bySiteYear site 2021 in
  let data2024 := profile bySiteYear site 2024 in
  let arr := matchedPointsArray data2021 data2024 in
  ints <- integrate arr ;;
  Some (mkSnapshot
          (set string_dec site (Years.mk data2021 data2024) (byYearSite acc))
          (set string_dec site (differences arr) (differencesBySite acc))
          (set string_dec site ints (integralBySite acc))
          (sites acc)).

Fixpoint forEachM (A S : Type) (f : S -> A -> option S) (l : list A) (s : S)
  : option S :=
  match l with
  | [] => Some s
  | x :: l' => s' <- f s x ;; forEachM f l' s'
  end.

Definition processData (rawData : list Row.t) : option Snapshot :=
  let bySiteYear := groupBy groupKey rawData in
  let sites := uniq (map Row.site rawData) in
  forEachM (siteStep bySiteYear) sites (mkSnapshot [] [] [] sites).

(** ** Sample data *)

Definition row (s : string) (y d e : Z) : Row.t :=
  Row.mk s y (ofZ d) (ofZ e).

Definition sampleAHA : list Row.t :=
  [ row "AHA" 2021 1 12; row "AHA" 2024 0 11;
    row "AHA" 2021 0 10; row "AHA" 2024 1 11 ].

(** ** Reference functions used in the statements *)

(** Area of the trapezoid between two consecutive matched points. *)
Definition trapezoid (prev point : Point.t) : num :=
  ((toNumber (Point.diff point) + toNumber (Point.diff prev)) / two
   * (Point.distAlong point - Point.distAlong prev))%Qc.

(** The integral by structural recursion: [prev] is the point before
    [todo] and [runningSum] the integral there. *)
Fixpoint runFrom (prev : Point.t) (runningSum : num) (todo : list Point.t)
  : list IntPt.t :=
  match todo with
  | [] => []
  | point :: todo' =>
      let s := (runningSum + trapezoid prev point)%Qc in
      IntPt.mk (Point.distAlong point) s :: runFrom point s todo'
  end.

Definition integralOf (arr : list Point.t) : list IntPt.t :=
  match arr with
  | [] => []
  | point :: todo => IntPt.mk (Point.distAlong point) 0%Qc :: runFrom point 0%Qc todo
  end.

(** The rounding key of a record and of a matched point. *)
Definition rowKey (row : Row.t) : FixedStr := toFixed3 (Row.distAlong row).
Definition pointKey (point : Point.t) : FixedStr :=
  toFixed3 (Point.distAlong point).

(** The last record of a profile whose rounding key is [k]. *)
Fixpoint lastWithKey (k : FixedStr) (l : list Row.t) : option Row.t :=
  match l with
  | [] => None
  | row :: l' =>
      match lastWithKey k l' with
      | Some r => Some r
      | None => if FixedStr_eq_dec k (rowKey row) then Some row else None
      end
  end.

(** The entry an earlier-year record writes. *)
Definition earlyEntry (row : Row.t) : Point.t :=
  Point.mk (Row.distAlong row) (Some (Row.elevation row)) None None.

(** The entry left at a key by a later-year record on top of [p]. *)
Definition lateOver (p : Point.t) (row : Row.t) : Point.t :=
  Point.mk (Point.distAlong p) (Point.elev2021 p) (Some (Row.elevation row))
    (Some (Row.elevation row - toNumber (Point.elev2021 p))%Qc).

(** The matched point of two records that share a rounding key. *)
Definition paired (r1 r2 : Row.t) : Point.t :=
  Point.mk (Row.distAlong r1) (Some (Row.elevation r1))
    (Some (Row.elevation r2)) (Some (Row.elevation r2 - Row.elevation r1)%Qc).

(** The records of one (site, year), in input order, and what the
    pipeline is expected to derive from them. *)
Definition recordsOf (rawData : list Row.t) (site : string) (year : Z)
  : list Row.t :=
  filter (fun r => String.eqb (Row.site r) site && Z.eqb (Row.year r) year)
    rawData.

Definition profileOf (rawData : list Row.t) (site : string) (year : Z)
  : list Row.t :=
  sort byDistRow (recordsOf rawData site year).

Definition arrOf (rawData : list Row.t) (site : string) : list Point.t :=
  matchedPointsArray (profileOf rawData site 2021) (profileOf rawData site 2024).

(** What the snapshot holds for one site: [byYearSite[site]],
    [differencesBySite[site]] and [integralBySite[site]]. *)
Record SiteResult : Type := mkSiteResult
  { profiles : Years.t;
    differenceSeries : list DiffPt.t;
    integralSeries : list IntPt.t }.

Definition siteResult (rawData : list Row.t) (site : string)
  : option SiteResult :=
  snap <- processData rawData ;;
  y <- get string_dec site (byYearSite snap) ;;
  d <- get string_dec site (differencesBySite snap) ;;
  i <- get string_dec site (integralBySite snap) ;;
  Some (mkSiteResult y d i).

Fixpoint occurs (c : ascii) (s : string) : Prop :=
  match s with
  | EmptyString => False
  | String c' s' => c = c' \/ occurs c s'
  end.

(** The expected entry of a site. *)
Definition expected (rawData : list Row.t) (site : string) : SiteResult :=
  mkSiteResult
    (Years.mk (profileOf rawData site 2021) (profileOf rawData site 2024))
    (differences (arrOf rawData site))
    (integralOf (arrOf rawData site)).

Definition diffKey (d : DiffPt.t) : FixedStr := toFixed3 (DiffPt.distAlong d).

(** Four matched points at distances 0, 1, 1 and 2: the second and
    third share a distance. *)
Definition samplePoints : list Point.t :=
  [ Point.mk (ofZ 0) (Some (ofZ 10)) (Some (ofZ 11)) (Some (ofZ 1));
    Point.mk (ofZ 1) (Some (ofZ 12)) (Some (ofZ 15)) (Some (ofZ 3));
    Point.mk (ofZ 1) (Some (ofZ 12)) (Some (ofZ 17)) (Some (ofZ 5));
    Point.mk (ofZ 2) (Some (ofZ 9)) (Some (ofZ 8)) (Some (ofZ (-1))) ].


(** Three profiles used as concrete inputs. *)
Definition sampleCollide : list Row.t :=
  [ Row.mk "AHA" 2021 (Q2Qc (1 # 10000)) (ofZ 10);
    Row.mk "AHA" 2021 (Q2Qc (2 # 10000)) (ofZ 12);
    Row.mk "AHA" 2024 (Q2Qc (3 # 10000)) (ofZ 11);
    Row.mk "AHA" 2024 (Q2Qc (4 # 10000)) (ofZ 15);
    row "AHA" 2021 5 20 ].

Definition sampleOneYear : list Row.t :=
  [ row "AHA" 2021 1 12; row "FAL" 2024 0 3; row "AHA" 2021 0 10 ].

(** Two orders of the same records, two of which tie on [distAlong]. *)
Definition tiedA : list Row.t :=
  [ row "AHA" 2021 0 10; row "AHA" 2021 0 12; row "AHA" 2024 0 11 ].

Definition tiedB : list Row.t :=
  [ row "AHA" 2021 0 12; row "AHA" 2021 0 10; row "AHA" 2024 0 11 ].

(** Records that tie on site, year and [distAlong] are the same record. *)
Definition tieFree (rawData : list Row.t) : Prop :=
  forall a b,
    In a rawData -> In b rawData ->
    Row.site a = Row.site b -> Row.year a = Row.year b ->
    Row.distAlong a = Row.distAlong b -> a = b.

(** Table invariants: the keys are distinct, and every entry sits at the
    rounding key of its own [distAlong]. *)
Definition keyed (e : FixedStr * Point.t) : Prop := pointKey (snd e) = fst e.

Definition wellKeyed (t : MatchTable) : Prop :=
  NoDup (keys t) /\ Forall keyed t.

(** ** Site selection and the data handed to the charts *)

(** [sites.length > 0 ? [sites[0]] : []], the argument of
    [setSelectedSites] in [processData]. *)
Definition initialSelection (sites : list string) : list string :=
  match sites with
  | [] => []
  | site0 :: _ => [site0]
  end.

(** [xs.includes(s)] *)
Definition includes (xs : list string) (s : string) : bool :=
  existsb (String.eqb s) xs.

(** The new value of [selectedSites] set by [toggleSite]. *)
Definition toggleSite (selectedSites : list string) (site : string)
  : list string :=
  if includes selectedSites site
  then filter (fun s => negb (String.eqb s site)) selectedSites
  else selectedSites ++ [site].

Definition selectAllSites (data : Snapshot) : list string := sites data.

Definition deselectAllSites : list string := [].

(** The buttons of the dashboard: "Select All", "Deselect All", and one
    button per element of [data.sites], identified by its position. *)
Inductive Click : Type :=
| ClickSelectAll
| ClickDeselectAll
| ClickSite (button : nat).

Definition onClick (data : Snapshot) (selectedSites : list string)
    (c : Click) : list string :=
  match c with
  | ClickSelectAll => selectAllSites data
  | ClickDeselectAll => deselectAllSites
  | ClickSite button =>
      match nth_error (sites data) button with
      | Some site => toggleSite selectedSites site
      | None => selectedSites
      end
  end.

(** The selection after [processData] and a sequence of clicks. *)
Definition selectionAfter (data : Snapshot) (clicks : list Click)
  : list string :=
  fold_left (onClick data) clicks (initialSelection (sites data)).

Definition yearColorMap : Obj Z string :=
  [ (2021%Z, "#8884d8"%string); (2024%Z, "#ff7300"%string) ].

Definition colorMap : Obj string string :=
  [ ("AHA", "#1f77b4"); ("FAL", "#ff7f0e"); ("LGR", "#2ca02c");
    ("MCC", "#d62728"); ("MID", "#9467bd") ]%string.

(** The props of a [<Line>] that depend on the data. *)
Record Line (A : Type) : Type := mkLine
  { lineName : string; lineData : list A; stroke : option string }.

(** [rows.length > 0 && <Line ... />] *)
Definition yearLine (name : string) (year : Z) (rows : list Row.t)
  : list (Line Row.t) :=
  if (0 <? length rows)%nat
  then [mkLine name rows (get Z.eq_dec year yearColorMap)]
  else [].

(** The chart of one selected site in the first plot: its title and
    its lines.  [data.byYearSite[site]] is read without a guard, so a
    site without an entry throws. *)
Definition profileChart (data : Snapshot) (site : string)
  : option (string * list (Line Row.t)) :=
  y <- get string_dec site (byYearSite data) ;;
  Some (site,
        yearLine (site ++ " (2021)")%string 2021 (Years.y2021 y)
        ++ yearLine (site ++ " (2024)")%string 2024 (Years.y2024 y)).

Fixpoint mapM (A B : Type) (f : A -> option B) (l : list A)
  : option (list B) :=
  match l with
  | [] => Some []
  | x :: l' => y <- f x ;; ys <- mapM f l' ;; Some (y :: ys)
  end.

Definition profileCharts (data : Snapshot) (selectedSites : list string)
  : option (list (string * list (Line Row.t))) :=
  mapM (profileChart data) selectedSites.

(** [series[site] && <Line ... />] over the selected sites, as used by
    the second and third plot. *)
Definition seriesLines (A : Type) (series : Obj string (list A))
    (selectedSites : list string) : list (Line A) :=
  flat_map
    (fun site =>
       match get string_dec site series with
       | Some xs => [mkLine site xs (get string_dec site colorMap)]
       | None => []
       end)
    selectedSites.

(** ** Further reference functions *)

(** The distinct elements of a list in order of first appearance. *)
Fixpoint firstOccurrences (xs : list string) : list string :=
  match xs with
  | [] => []
  | x :: xs' =>
      x :: filter (fun s => negb (String.eqb s x)) (firstOccurrences xs')
  end.

Definition thousandth : num := Q2Qc (1 # 1000).

(** The records of a list that sit at distance [d]. *)
Definition atDistance (d : num) (l : list Row.t) : list Row.t :=
  filter (fun r => Qc_eq_bool (Row.distAlong r) d) l.

Definition sampleSchedule : list Row.t :=
  [ row "FAL" 2021 0 5; row "AHA" 2021 1 12; row "FAL" 2024 0 7;
    row "AHA" 2024 1 14; row "AHA" 2021 0 10; row "AHA" 2024 0 10;
    row "LGR" 2019 0 1 ].

Definition sampleUnchanged : list Row.t :=
  [ row "AHA" 2024 1 12; row "AHA" 2021 0 10;
    row "AHA" 2021 1 12; row "AHA" 2024 0 10 ].

(** A distance given in whole thousandths. *)
Definition milli (n : Z) : num := Q2Qc (n # 1000).

Definition sampleUnderscore : list Row.t :=
  [ row "A_2021" 2024 0 1; row "A" 2021 0 2; row "A_2021" 2021 1 3;
    row "A" 2024 0 4 ].

(** ** The integrator over binary64

    The same [map] callback as [integralLoop], with the binary64
    operations of JavaScript numbers in place of the exact ones.  It is
    used to evaluate the code on concrete inputs where rounding
    matters. *)

Module PointF.
Record t : Type := mk
  { distAlong : float;
    elev2021 : option float;
    elev2024 : option float;
    diff : option float }.
End PointF.

Module IntPtF.
Record t : Type := mk { distAlong : float; integral : float }.
End IntPtF.







(** ** Rounding buckets *)

Definition halfThousandth : num := Q2Qc (1 # 2000).

(** [x] lies in the half-open interval of width 0.001 centred on
    [n / 1000]. *)
Definition inBucket (n : Z) (x : num) : Prop :=
  (milli n - halfThousandth <= x)%Qc /\ (x < milli n + halfThousandth)%Qc.

(** The two binary64 values next to each other around 0.0005: the
    value of the literal [0.0005] and its predecessor. *)
Definition double_0_0005 : num := Q2Qc (1152921504606847 # 2305843009213693952).
Definition double_below_0_0005 : num :=
  Q2Qc (4611686018427387 # 9223372036854775808).


(** * Properties *)

Unset Implicit Arguments.

(** ** Rational arithmetic *)

Lemma Qc_ltb_lt (x y : Qc) : Qc_ltb x y = true <-> (x < y)%Qc.
Proof.
  unfold Qc_ltb. rewrite Qclt_alt.
  destruct (x ?= y)%Qc; split; congruence.
Qed.

Lemma Qc_ltb_ge (x y : Qc) : Qc_ltb x y = false <-> (y <= x)%Qc.
Proof.
  split; intro H.
  - apply Qcnot_lt_le. intro L. apply Qc_ltb_lt in L. congruence.
  - destruct (Qc_ltb x y) eqn:E; trivial.
    apply Qc_ltb_lt in E. exfalso. exact (Qcle_not_lt _ _ H E).
Qed.



Lemma two_neq_0 : two <> 0%Qc.
Proof. intro H. apply (f_equal this) in H. discriminate H. Qed.


Lemma sub_pos (x y : Qc) : (0 < x - y)%Qc <-> (y < x)%Qc.
Proof. symmetry. apply Qclt_minus_iff. Qed.

(** ** The integrator *)

Lemma integralLoop_runFrom (todo : list Point.t) :
  forall (done : list Point.t) (prev : Point.t) (runningSum : num),
    integralLoop (done ++ prev :: todo) (S (length done)) runningSum todo
    = Some (runFrom prev runningSum todo).
Proof.
  induction todo as [|point todo IH]; intros done prev runningSum.
  - reflexivity.
  - cbn [integralLoop runFrom].
    replace (0 <? S (length done))%nat with true by reflexivity.
    replace (S (length done) - 1)%nat with (length done) by lia.
    rewrite nth_error_app2, Nat.sub_diag by lia. cbn [nth_error bind].
    specialize (IH (done ++ [prev]) point (runningSum + trapezoid prev point)%Qc).
    rewrite <- app_assoc, length_app in IH. cbn [app length] in IH.
    replace (length done + 1)%nat with (S (length done)) in IH by lia.
    unfold trapezoid in IH |- *. rewrite IH. reflexivity.
Qed.

Lemma integrate_integralOf (arr : list Point.t) :
  integrate arr = Some (integralOf arr).
Proof.
  destruct arr as [|point todo]; [reflexivity|].
  pose proof (integralLoop_runFrom todo [] point 0%Qc) as H.
  cbn [app length] in H.
  unfold integrate, integralOf. cbn [integralLoop Nat.ltb Nat.leb bind].
  rewrite H. reflexivity.
Qed.

Lemma runFrom_length (todo : list Point.t) :
  forall prev s, length (runFrom prev s todo) = length todo.
Proof. induction todo; intros; cbn; [|rewrite IHtodo]; reflexivity. Qed.

Lemma integralOf_length (arr : list Point.t) :
  length (integralOf arr) = length arr.
Proof. destruct arr; cbn; [|rewrite runFrom_length]; reflexivity. Qed.

Lemma runFrom_dist (todo : list Point.t) :
  forall prev s,
    map IntPt.distAlong (runFrom prev s todo) = map Point.distAlong todo.
Proof. induction todo; intros; cbn; [|rewrite IHtodo]; reflexivity. Qed.

Lemma integralOf_dist (arr : list Point.t) :
  map IntPt.distAlong (integralOf arr) = map Point.distAlong arr.
Proof. destruct arr; cbn; [|rewrite runFrom_dist]; reflexivity. Qed.

Lemma differences_dist (arr : list Point.t) :
  map DiffPt.distAlong (differences arr) = map Point.distAlong arr.
Proof. unfold differences. rewrite map_map. reflexivity. Qed.

(** Consecutive entries of the running integral differ by one trapezoid. *)
Lemma runFrom_step (todo : list Point.t) :
  forall prev s i a0 a1 p0 p1,
    nth_error (prev :: todo) i = Some a0 ->
    nth_error (prev :: todo) (S i) = Some a1 ->
    nth_error (IntPt.mk (Point.distAlong prev) s :: runFrom prev s todo) i
      = Some p0 ->
    nth_error (IntPt.mk (Point.distAlong prev) s :: runFrom prev s todo) (S i)
      = Some p1 ->
    IntPt.integral p1 = (IntPt.integral p0 + trapezoid a0 a1)%Qc.
Proof.
  induction todo as [|point todo IH]; intros prev s i a0 a1 p0 p1 Ha0 Ha1 Hp0 Hp1.
  - destruct i; discriminate Ha1.
  - destruct i as [|i].
    + cbn [nth_error runFrom] in *.
      injection Ha0 as <-. injection Ha1 as <-.
      injection Hp0 as <-. injection Hp1 as <-. reflexivity.
    + cbn [nth_error runFrom] in *. eapply IH; eassumption.
Qed.

Lemma integralOf_step (arr : list Point.t) i a0 a1 p0 p1 :
  nth_error arr i = Some a0 ->
  nth_error arr (S i) = Some a1 ->
  nth_error (integralOf arr) i = Some p0 ->
  nth_error (integralOf arr) (S i) = Some p1 ->
  IntPt.integral p1 = (IntPt.integral p0 + trapezoid a0 a1)%Qc.
Proof.
  destruct arr as [|point todo]; [destruct i; discriminate|].
  apply runFrom_step.
Qed.

Lemma integralOf_first (arr : list Point.t) p :
  nth_error (integralOf arr) 0 = Some p -> IntPt.integral p = 0%Qc.
Proof.
  destruct arr; cbn [integralOf nth_error]; intro H;
    [discriminate | injection H as <-; reflexivity].
Qed.

Lemma nth_error_differences (arr : list Point.t) i d :
  nth_error (differences arr) i = Some d ->
  exists a, nth_error arr i = Some a
            /\ DiffPt.distAlong d = Point.distAlong a
            /\ DiffPt.difference d = Point.diff a.
Proof.
  unfold differences. rewrite nth_error_map.
  destruct (nth_error arr i) as [a|]; [|discriminate].
  cbn. intro H. injection H as <-. exists a. auto.
Qed.

(** ** Dictionaries *)

Section ObjFacts.
Variables (K V : Type).
Variable K_eq_dec : forall a b : K, {a = b} + {a <> b}.
Implicit Types (k : K) (v : V) (o : Obj K V).

Lemma get_set_same k v o : get K_eq_dec k (set K_eq_dec k v o) = Some v.
Proof.
  induction o as [|[k' v'] o IH]; cbn.
  - destruct (K_eq_dec k k); congruence.
  - destruct (K_eq_dec k k') as [E|N]; cbn.
    + destruct (K_eq_dec k k); congruence.
    + destruct (K_eq_dec k k'); congruence.
Qed.

Lemma get_set_other k k' v o :
  k <> k' -> get K_eq_dec k (set K_eq_dec k' v o) = get K_eq_dec k o.
Proof.
  intro N. induction o as [|[k2 v2] o IH]; cbn.
  - destruct (K_eq_dec k k'); congruence.
  - destruct (K_eq_dec k' k2) as [E|N2]; cbn.
    + subst k2. destruct (K_eq_dec k k'); congruence.
    + destruct (K_eq_dec k k2); congruence.
Qed.

Lemma get_set k k' v o :
  get K_eq_dec k (set K_eq_dec k' v o)
  = if K_eq_dec k k' then Some v else get K_eq_dec k o.
Proof.
  destruct (K_eq_dec k k') as [->|N].
  - apply get_set_same.
  - apply get_set_other, N.
Qed.

Lemma keys_set k k' v o :
  In k (keys (set K_eq_dec k' v o)) <-> k = k' \/ In k (keys o).
Proof.
  induction o as [|[k2 v2] o IH]; cbn.
  - intuition congruence.
  - destruct (K_eq_dec k' k2) as [E|N2]; cbn.
    + subst k2. intuition congruence.
    + rewrite IH. intuition congruence.
Qed.

Lemma NoDup_keys_set k v o :
  NoDup (keys o) -> NoDup (keys (set K_eq_dec k v o)).
Proof.
  induction o as [|[k2 v2] o IH]; cbn; intro H.
  - constructor; [intros []|constructor].
  - inversion H as [|? ? Hn Hd]; subst.
    destruct (K_eq_dec k k2) as [E|N2]; cbn.
    + subst k2. constructor; assumption.
    + constructor; [|apply IH, Hd].
      fold (keys (set K_eq_dec k v o)). rewrite keys_set.
      intros [E|I]; [congruence | exact (Hn I)].
Qed.

Lemma In_set k v k' v' o :
  In (k, v) (set K_eq_dec k' v' o) -> (k, v) = (k', v') \/ In (k, v) o.
Proof.
  induction o as [|[k2 v2] o IH]; cbn.
  - intuition congruence.
  - destruct (K_eq_dec k' k2) as [E|N2]; cbn; intuition congruence.
Qed.

Lemma Forall_set (P : K * V -> Prop) k v o :
  P (k, v) -> Forall P o -> Forall P (set K_eq_dec k v o).
Proof.
  intros Hp Ho. apply Forall_forall. intros [k' v'] Hin.
  apply In_set in Hin. destruct Hin as [E|I].
  - rewrite E. exact Hp.
  - rewrite Forall_forall in Ho. exact (Ho _ I).
Qed.

Lemma get_In k v o : get K_eq_dec k o = Some v -> In (k, v) o.
Proof.
  induction o as [|[k2 v2] o IH]; cbn; [discriminate|].
  destruct (K_eq_dec k k2) as [E|N2]; intro H.
  - left. congruence.
  - right. exact (IH H).
Qed.

Lemma In_get k v o : NoDup (keys o) -> In (k, v) o -> get K_eq_dec k o = Some v.
Proof.
  induction o as [|[k2 v2] o IH]; cbn; intros Hd Hin; [contradiction|].
  inversion Hd as [|? ? Hn Hd']; subst.
  destruct Hin as [E|I].
  - injection E as -> ->. destruct (K_eq_dec k k); congruence.
  - destruct (K_eq_dec k k2) as [E|N2]; [|exact (IH Hd' I)].
    subst k2. exfalso. apply Hn.
    change (In (fst (k, v)) (map fst o)). apply in_map, I.
Qed.

Lemma get_Some_keys k o :
  In k (keys o) <-> exists v, get K_eq_dec k o = Some v.
Proof.
  induction o as [|[k2 v2] o IH]; cbn.
  - split; [intros [] | intros [v H]; discriminate].
  - destruct (K_eq_dec k k2) as [E|N2].
    + split; [intros _; eauto | intros _; left; congruence].
    + rewrite <- IH. intuition congruence.
Qed.
End ObjFacts.

(** ** Sorting by a numeric key *)

Section SortFacts.
Variable A : Type.
Variable key : A -> num.

Let cmp (a b : A) : num := (key a - key b)%Qc.
Let le (a b : A) : Prop := (key a <= key b)%Qc.

Lemma insert_perm x l : Permutation (insert cmp x l) (x :: l).
Proof.
  induction l as [|y l IH]; cbn; [reflexivity|].
  destruct (Qc_ltb 0%Qc (cmp x y)); [|reflexivity].
  rewrite IH. apply perm_swap.
Qed.

Lemma sort_perm l : Permutation (sort cmp l) l.
Proof.
  induction l as [|x l IH]; cbn; [reflexivity|].
  rewrite insert_perm. constructor. exact IH.
Qed.

Lemma insert_sorted x l :
  StronglySorted le l -> StronglySorted le (insert cmp x l).
Proof.
  induction l as [|y l IH]; cbn; intro H.
  - constructor; constructor.
  - inversion H as [|? ? Hs Hf]; subst.
    destruct (Qc_ltb 0%Qc (cmp x y)) eqn:E.
    + apply Qc_ltb_lt in E. unfold cmp in E. apply -> sub_pos in E.
      constructor; [apply IH, Hs|].
      apply Forall_forall. intros z Hz.
      apply (Permutation_in _ (insert_perm x l)) in Hz.
      destruct Hz as [<-|Hz].
      * apply Qclt_le_weak, E.
      * rewrite Forall_forall in Hf. exact (Hf _ Hz).
    + apply Qc_ltb_ge in E. unfold cmp in E.
      assert (L : le x y).
      { unfold le. apply Qcnot_lt_le. intro L. apply <- sub_pos in L.
        exact (Qcle_not_lt _ _ E L). }
      constructor; [exact H|].
      constructor; [exact L|].
      apply Forall_forall. intros z Hz.
      rewrite Forall_forall in Hf.
      exact (Qcle_trans _ _ _ L (Hf _ Hz)).
Qed.

Lemma sort_sorted l : StronglySorted le (sort cmp l).
Proof.
  induction l as [|x l IH]; cbn; [constructor|].
  apply insert_sorted, IH.
Qed.

(** Two sorted lists with the same elements are equal as soon as
    elements with equal keys are equal. *)
Lemma sorted_perm_eq l1 :
  forall l2,
    (forall a b, In a l1 -> In b l1 -> key a = key b -> a = b) ->
    StronglySorted le l1 -> StronglySorted le l2 ->
    Permutation l1 l2 -> l1 = l2.
Proof.
  induction l1 as [|a l1 IH]; intros l2 Hinj S1 S2 P.
  - apply Permutation_nil in P. congruence.
  - destruct l2 as [|b l2].
    { symmetry in P. apply Permutation_nil in P. discriminate. }
    inversion S1 as [|? ? S1' F1]; subst.
    inversion S2 as [|? ? S2' F2]; subst.
    rewrite Forall_forall in F1, F2.
    assert (Hab : a = b).
    { assert (Ia : In a (b :: l2)).
      { apply (Permutation_in _ P). left; reflexivity. }
      assert (Ib : In b (a :: l1)).
      { apply (Permutation_in _ (Permutation_sym P)). left; reflexivity. }
      destruct Ia as [E|Ia]; [congruence|].
      destruct Ib as [E|Ib]; [congruence|].
      apply Hinj; [left; reflexivity | right; exact Ib |].
      apply Qcle_antisym; [exact (F1 _ Ib) | exact (F2 _ Ia)]. }
    subst b. f_equal.
    apply IH; trivial.
    + intros x y Hx Hy. apply Hinj; right; assumption.
    + exact (Permutation_cons_inv P).
Qed.

Lemma sort_perm_eq l1 l2 :
  (forall a b, In a l1 -> In b l1 -> key a = key b -> a = b) ->
  Permutation l1 l2 -> sort cmp l1 = sort cmp l2.
Proof.
  intros Hinj P. apply sorted_perm_eq.
  - intros a b Ha Hb. apply Hinj; apply (Permutation_in _ (sort_perm l1));
      assumption.
  - apply sort_sorted.
  - apply sort_sorted.
  - apply (Permutation_trans (sort_perm l1)).
    apply (Permutation_trans P). apply Permutation_sym, sort_perm.
Qed.

(** A sorted list without repeated keys is strictly increasing. *)
Lemma sorted_strict l :
  StronglySorted le l -> NoDup (map key l) ->
  StronglySorted Qclt (map key l).
Proof.
  induction l as [|a l IH]; cbn; intros Hs Hd; [constructor|].
  inversion Hs as [|? ? Hs' Hf]; subst.
  inversion Hd as [|? ? Hn Hd']; subst.
  constructor; [apply IH; assumption|].
  apply Forall_forall. intros x Hx.
  apply in_map_iff in Hx as Hx'. destruct Hx' as [b [<- Hb]].
  rewrite Forall_forall in Hf.
  destruct (Qcle_lt_or_eq _ _ (Hf _ Hb)) as [L|E]; [exact L|].
  exfalso. apply Hn. rewrite E. exact Hx.
Qed.
End SortFacts.

(** ** The key table *)

Lemma lastWithKey_In k l r :
  lastWithKey k l = Some r -> In r l /\ rowKey r = k.
Proof.
  induction l as [|row l IH]; cbn; [discriminate|].
  destruct (lastWithKey k l) as [r'|].
  - intro H. injection H as ->. destruct (IH eq_refl). auto.
  - destruct (FixedStr_eq_dec k (rowKey row)); [|discriminate].
    intro H. injection H as ->. auto.
Qed.

Lemma lastWithKey_None k l :
  lastWithKey k l = None <-> ~ In k (map rowKey l).
Proof.
  induction l as [|row l IH]; cbn; [intuition discriminate|].
  destruct (lastWithKey k l) as [r'|].
  - split; [discriminate|]. intro H.
    apply IH. intro I. apply H. right. exact I.
  - destruct (FixedStr_eq_dec k (rowKey row)).
    + split; [discriminate|]. intro H. exfalso. apply H. left. congruence.
    + split; [|reflexivity]. intros _ [E|I]; [congruence|].
      apply IH in I; trivial.
Qed.

Lemma lastWithKey_Some k l :
  In k (map rowKey l) <-> exists r, lastWithKey k l = Some r.
Proof.
  destruct (lastWithKey k l) as [r|] eqn:E.
  - split; [eauto|]. intros _.
    apply lastWithKey_In in E. destruct E as [I <-]. apply in_map, I.
  - apply lastWithKey_None in E. split; [contradiction|].
    intros [r H]. discriminate H.
Qed.

Lemma lastWithKey_app k l1 l2 :
  lastWithKey k (l1 ++ l2)
  = match lastWithKey k l2 with
    | Some r => Some r
    | None => lastWithKey k l1
    end.
Proof.
  induction l1 as [|row l1 IH]; cbn.
  - destruct (lastWithKey k l2); reflexivity.
  - rewrite IH. destruct (lastWithKey k l2); reflexivity.
Qed.

Lemma get_step2021 k t row :
  get FixedStr_eq_dec k (step2021 t row)
  = if FixedStr_eq_dec k (rowKey row) then Some (earlyEntry row)
    else get FixedStr_eq_dec k t.
Proof. unfold step2021. apply get_set. Qed.

Lemma get_step2024 k t row :
  get FixedStr_eq_dec k (step2024 t row)
  = if FixedStr_eq_dec k (rowKey row) then
      Some match get FixedStr_eq_dec k t with
           | Some p => lateOver p row
           | None =>
               Point.mk (Row.distAlong row) None (Some (Row.elevation row)) None
           end
    else get FixedStr_eq_dec k t.
Proof.
  unfold step2024. fold (rowKey row).
  destruct (FixedStr_eq_dec k (rowKey row)) as [->|N].
  - destruct (get FixedStr_eq_dec (rowKey row) t); apply get_set_same.
  - destruct (get FixedStr_eq_dec (rowKey row) t); apply get_set_other, N.
Qed.

(** Last write wins in the earlier-year loop. *)
Lemma get_fold2021 k l :
  forall t,
    get FixedStr_eq_dec k (fold_left step2021 l t)
    = match lastWithKey k l with
      | Some r => Some (earlyEntry r)
      | None => get FixedStr_eq_dec k t
      end.
Proof.
  induction l as [|row l IH]; intro t; cbn [fold_left lastWithKey].
  - reflexivity.
  - rewrite IH, get_step2021.
    destruct (lastWithKey k l); [reflexivity|].
    destruct (FixedStr_eq_dec k (rowKey row)); reflexivity.
Qed.

Lemma get_table2021 k l :
  get FixedStr_eq_dec k (table2021 l) = option_map earlyEntry (lastWithKey k l).
Proof.
  unfold table2021. rewrite get_fold2021.
  destruct (lastWithKey k l); reflexivity.
Qed.

(** The later-year loop leaves untouched the keys it does not meet. *)
Lemma get_fold2024_absent k l :
  forall t,
    lastWithKey k l = None ->
    get FixedStr_eq_dec k (fold_left step2024 l t) = get FixedStr_eq_dec k t.
Proof.
  induction l as [|row l IH]; intros t; cbn [fold_left lastWithKey].
  - reflexivity.
  - destruct (lastWithKey k l) eqn:E; [discriminate|].
    destruct (FixedStr_eq_dec k (rowKey row)) as [|N] eqn:D; [discriminate|].
    intros _. rewrite IH, get_step2024, D; reflexivity.
Qed.

(** On a key that carries an entry, the last later-year record decides
    [elev2024] and [diff]; [distAlong] and [elev2021] stay. *)
Lemma get_fold2024_present k l :
  forall t p r,
    get FixedStr_eq_dec k t = Some p ->
    lastWithKey k l = Some r ->
    get FixedStr_eq_dec k (fold_left step2024 l t) = Some (lateOver p r).
Proof.
  induction l as [|row l IH]; intros t p r Hp; cbn [fold_left lastWithKey].
  - discriminate.
  - destruct (lastWithKey k l) as [r'|] eqn:E.
    + intro H. injection H as ->.
      destruct (FixedStr_eq_dec k (rowKey row)) as [Ek|N] eqn:D.
      * rewrite (IH (step2024 t row) (lateOver p row) r); [reflexivity| |reflexivity].
        rewrite get_step2024, D, Hp. reflexivity.
      * apply IH; [|reflexivity]. rewrite get_step2024, D. exact Hp.
    + destruct (FixedStr_eq_dec k (rowKey row)) as [Ek|N] eqn:D; [|discriminate].
      intro H. injection H as ->.
      rewrite get_fold2024_absent, get_step2024, D, Hp by exact E. reflexivity.
Qed.

(** On a key without an entry, the later-year loop creates one that
    never acquires an earlier-year elevation. *)
Lemma get_fold2024_fresh k l :
  forall t r,
    get FixedStr_eq_dec k t = None ->
    lastWithKey k l = Some r ->
    exists p,
      get FixedStr_eq_dec k (fold_left step2024 l t) = Some p
      /\ Point.elev2021 p = None
      /\ Point.elev2024 p = Some (Row.elevation r).
Proof.
  induction l as [|row l IH]; intros t r Hn; cbn [fold_left lastWithKey].
  - discriminate.
  - destruct (FixedStr_eq_dec k (rowKey row)) as [Ek|N] eqn:D.
    + set (q := Point.mk (Row.distAlong row) None (Some (Row.elevation row)) None).
      assert (Hq : get FixedStr_eq_dec k (step2024 t row) = Some q).
      { rewrite get_step2024, D, Hn. reflexivity. }
      destruct (lastWithKey k l) as [r'|] eqn:E; intro H; injection H as ->.
      * rewrite (@get_fold2024_present k l _ _ _ Hq E).
        exists (lateOver q r). auto.
      * rewrite get_fold2024_absent by exact E. exists q. auto.
    + destruct (lastWithKey k l) as [r'|] eqn:E; [|discriminate].
      intro H. injection H as ->.
      apply IH; [|reflexivity]. rewrite get_step2024, D. exact Hn.
Qed.

Lemma wellKeyed_step2021 t row : wellKeyed t -> wellKeyed (step2021 t row).
Proof.
  intros [Hd Hk]. split.
  - apply NoDup_keys_set, Hd.
  - apply Forall_set; [reflexivity | exact Hk].
Qed.

Lemma wellKeyed_step2024 t row : wellKeyed t -> wellKeyed (step2024 t row).
Proof.
  intros [Hd Hk]. unfold step2024.
  destruct (get FixedStr_eq_dec (toFixed3 (Row.distAlong row)) t) as [p|] eqn:E.
  - split; [apply NoDup_keys_set, Hd|].
    apply Forall_set; [|exact Hk].
    apply get_In in E. rewrite Forall_forall in Hk. exact (Hk _ E).
  - split; [apply NoDup_keys_set, Hd|].
    apply Forall_set; [reflexivity | exact Hk].
Qed.

Lemma wellKeyed_fold (step : MatchTable -> Row.t -> MatchTable) :
  (forall t row, wellKeyed t -> wellKeyed (step t row)) ->
  forall l t, wellKeyed t -> wellKeyed (fold_left step l t).
Proof.
  intros Hstep l. induction l as [|row l IH]; intros t Ht; cbn; auto.
Qed.

Lemma wellKeyed_matchedPoints d21 d24 : wellKeyed (matchedPoints d21 d24).
Proof.
  unfold matchedPoints, table2021.
  apply wellKeyed_fold; [exact wellKeyed_step2024|].
  apply wellKeyed_fold; [exact wellKeyed_step2021|].
  split; constructor.
Qed.

(** ** The matched points of a site *)

Lemma matchedPoints_both k d21 d24 r1 r2 :
  lastWithKey k d21 = Some r1 ->
  lastWithKey k d24 = Some r2 ->
  get FixedStr_eq_dec k (matchedPoints d21 d24) = Some (paired r1 r2).
Proof.
  intros H1 H2. unfold matchedPoints.
  rewrite (@get_fold2024_present k d24 _ (earlyEntry r1) r2); trivial.
  rewrite get_table2021, H1. reflexivity.
Qed.

Lemma matchedPoints_bothYears k d21 d24 p :
  get FixedStr_eq_dec k (matchedPoints d21 d24) = Some p ->
  bothYears p = true ->
  exists r1 r2,
    lastWithKey k d21 = Some r1 /\ lastWithKey k d24 = Some r2
    /\ p = paired r1 r2.
Proof.
  intros Hg Hb.
  destruct (lastWithKey k d21) as [r1|] eqn:E1;
    destruct (lastWithKey k d24) as [r2|] eqn:E2.
  - rewrite (matchedPoints_both _ _ _ _ _ E1 E2) in Hg. injection Hg as <-. eauto.
  - unfold matchedPoints in Hg.
    rewrite get_fold2024_absent, get_table2021, E1 in Hg by exact E2.
    injection Hg as <-. discriminate Hb.
  - unfold matchedPoints in Hg.
    destruct (@get_fold2024_fresh k d24 (table2021 d21) r2) as [q [Hq [Hn _]]];
      trivial.
    { rewrite get_table2021, E1. reflexivity. }
    rewrite Hq in Hg. injection Hg as <-.
    unfold bothYears in Hb. rewrite Hn in Hb. discriminate Hb.
  - unfold matchedPoints in Hg.
    rewrite get_fold2024_absent, get_table2021, E1 in Hg by exact E2.
    discriminate Hg.
Qed.

Lemma In_values_get (t : MatchTable) p :
  NoDup (keys t) ->
  (In p (values t) <-> exists k, get FixedStr_eq_dec k t = Some p).
Proof.
  intro Hd. unfold values. rewrite in_map_iff. split.
  - intros [[k q] [E I]]. cbn in E. subst q. exists k.
    apply In_get; assumption.
  - intros [k H]. exists (k, p). split; [reflexivity|].
    apply (get_In _ _ _ _ _ _ H).
Qed.

(** The array forwarded to the differencer holds exactly the pairs of
    last records of the two profiles at a common rounding key. *)
Lemma In_matchedPointsArray d21 d24 p :
  In p (matchedPointsArray d21 d24) <->
  exists k r1 r2,
    lastWithKey k d21 = Some r1 /\ lastWithKey k d24 = Some r2
    /\ p = paired r1 r2.
Proof.
  unfold matchedPointsArray.
  destruct (wellKeyed_matchedPoints d21 d24) as [Hd _].
  split.
  - intro H. apply (Permutation_in _ (sort_perm _ Point.distAlong _)) in H.
    apply filter_In in H. destruct H as [Hv Hb].
    apply In_values_get in Hv; [|exact Hd]. destruct Hv as [k Hk].
    exists k. eapply matchedPoints_bothYears; eassumption.
  - intros [k [r1 [r2 [H1 [H2 ->]]]]].
    apply (Permutation_in _ (Permutation_sym (sort_perm _ Point.distAlong _))).
    apply filter_In. split; [|reflexivity].
    apply In_values_get; [exact Hd|]. exists k.
    apply matchedPoints_both; assumption.
Qed.

Lemma keyed_values (t : MatchTable) :
  Forall keyed t -> map pointKey (values t) = keys t.
Proof.
  induction 1 as [|[k p] t Hk _ IH]; cbn; [reflexivity|].
  unfold keyed in Hk. cbn in Hk. fold (values t) (keys t). congruence.
Qed.

Lemma NoDup_map_filter (A B : Type) (g : A -> B) (f : A -> bool) (l : list A) :
  NoDup (map g l) -> NoDup (map g (filter f l)).
Proof.
  induction l as [|a l IH]; cbn; intro H; [constructor|].
  inversion H as [|? ? Hn Hd]; subst.
  destruct (f a); cbn; [|exact (IH Hd)].
  constructor; [|exact (IH Hd)].
  intro I. apply Hn. apply in_map_iff in I. destruct I as [x [E Ix]].
  apply filter_In in Ix. rewrite <- E. apply in_map, Ix.
Qed.

(** One entry per rounding key. *)
Lemma matchedPointsArray_keys d21 d24 :
  NoDup (map pointKey (matchedPointsArray d21 d24)).
Proof.
  unfold matchedPointsArray.
  destruct (wellKeyed_matchedPoints d21 d24) as [Hd Hk].
  eapply Permutation_NoDup.
  - apply Permutation_map, Permutation_sym, (sort_perm _ Point.distAlong _).
  - apply NoDup_map_filter. rewrite keyed_values; assumption.
Qed.

Lemma matchedPointsArray_sorted d21 d24 :
  StronglySorted (fun a b => (Point.distAlong a <= Point.distAlong b)%Qc)
    (matchedPointsArray d21 d24).
Proof. apply (sort_sorted _ Point.distAlong). Qed.

Lemma matchedPointsArray_strict d21 d24 :
  StronglySorted Qclt (map Point.distAlong (matchedPointsArray d21 d24)).
Proof.
  apply sorted_strict; [apply matchedPointsArray_sorted|].
  apply (NoDup_map_inv toFixed3). rewrite map_map.
  apply matchedPointsArray_keys.
Qed.

(** ** Group keys *)

Lemma occurs_app c s1 s2 :
  occurs c (s1 ++ s2)%string <-> occurs c s1 \/ occurs c s2.
Proof.
  induction s1 as [|c1 s1 IH]; cbn; [tauto|]. rewrite IH. tauto.
Qed.

Lemma sep_inj (a : string) :
  forall b u v,
    ~ occurs "_"%char u -> ~ occurs "_"%char v ->
    (a ++ "_" ++ u = b ++ "_" ++ v)%string -> a = b /\ u = v.
Proof.
  induction a as [|c a IH]; intros b u v Hu Hv E.
  - destruct b as [|c' b]; cbn in E.
    + injection E as E. auto.
    + injection E as Ec E. exfalso. apply Hu. rewrite E.
      apply occurs_app. right. left. reflexivity.
  - destruct b as [|c' b]; cbn in E.
    + injection E as Ec E. exfalso. apply Hv. rewrite <- E.
      apply occurs_app. right. left. reflexivity.
    + injection E as Ec E. destruct (IH b u v Hu Hv E). split; congruence.
Qed.

Lemma string_of_uint_digits d :
  ~ occurs "_"%char (NilEmpty.string_of_uint d).
Proof.
  induction d; cbn; try tauto; intros [E|H]; try discriminate E; tauto.
Qed.

Lemma showZ_no_sep z : ~ occurs "_"%char (showZ z).
Proof.
  unfold showZ, NilEmpty.string_of_int.
  destruct (Z.to_int z) as [d|d]; [apply string_of_uint_digits|].
  cbn. intros [E|H]; [discriminate E|]. exact (string_of_uint_digits d H).
Qed.

Lemma showZ_inj y z : showZ y = showZ z -> y = z.
Proof.
  unfold showZ. intro E.
  apply (f_equal NilEmpty.int_of_string) in E.
  rewrite !NilEmpty.isi in E. injection E as E.
  apply (f_equal Z.of_int) in E. rewrite !DecimalZ.of_to in E. exact E.
Qed.

Lemma siteYearKey_inj s y s' y' :
  siteYearKey s y = siteYearKey s' y' -> s = s' /\ y = y'.
Proof.
  unfold siteYearKey. intro E.
  apply sep_inj in E; try apply showZ_no_sep.
  destruct E as [Es Ey]. split; [exact Es | exact (showZ_inj _ _ Ey)].
Qed.

Lemma groupKey_eqb r s y :
  String.eqb (groupKey r) (siteYearKey s y)
  = String.eqb (Row.site r) s && Z.eqb (Row.year r) y.
Proof.
  unfold groupKey.
  destruct (String.eqb_spec (siteYearKey (Row.site r) (Row.year r))
              (siteYearKey s y)) as [E|N].
  - apply siteYearKey_inj in E. destruct E as [-> ->].
    rewrite String.eqb_refl, Z.eqb_refl. reflexivity.
  - destruct (String.eqb_spec (Row.site r) s) as [Es|]; [|reflexivity].
    destruct (Z.eqb_spec (Row.year r) y) as [Ey|]; [|reflexivity].
    exfalso. apply N. congruence.
Qed.

(** ** [groupBy] *)

Lemma groupBy_fold (A : Type) (f : A -> string) (k : string) (l : list A) :
  forall acc,
    orEmpty
      (get string_dec k
         (fold_left
            (fun acc x =>
               match get string_dec (f x) acc with
               | Some g => set string_dec (f x) (g ++ [x]) acc
               | None => set string_dec (f x) [x] acc
               end) l acc))
    = orEmpty (get string_dec k acc)
      ++ filter (fun x => String.eqb (f x) k) l.
Proof.
  induction l as [|x l IH]; intro acc; cbn [fold_left filter].
  - rewrite app_nil_r. reflexivity.
  - rewrite IH. destruct (String.eqb_spec (f x) k) as [E|N].
    + subst k. destruct (get string_dec (f x) acc) as [g|] eqn:G;
        rewrite get_set_same; cbn [orEmpty]; [rewrite <- app_assoc|];
        reflexivity.
    + destruct (get string_dec (f x) acc) as [g|];
        (rewrite get_set_other by congruence); reflexivity.
Qed.

Lemma groupBy_get (A : Type) (f : A -> string) (k : string) (l : list A) :
  orEmpty (get string_dec k (groupBy f l))
  = filter (fun x => String.eqb (f x) k) l.
Proof. unfold groupBy. rewrite groupBy_fold. reflexivity. Qed.

Lemma profile_profileOf rawData s y :
  profile (groupBy groupKey rawData) s y = profileOf rawData s y.
Proof.
  unfold profile, profileOf, recordsOf. rewrite groupBy_get.
  f_equal. apply filter_ext. intro r. apply groupKey_eqb.
Qed.

(** ** The site set *)

Lemma uniq_fold xs :
  forall acc s,
    In s (fold_left
            (fun acc s =>
               if existsb (String.eqb s) acc then acc else acc ++ [s])
            xs acc)
    <-> In s acc \/ In s xs.
Proof.
  induction xs as [|x xs IH]; intros acc s; cbn [fold_left In].
  - tauto.
  - rewrite IH. destruct (existsb (String.eqb x) acc) eqn:E.
    + apply existsb_exists in E. destruct E as [x' [I E]].
      apply String.eqb_eq in E. subst x'. intuition congruence.
    + rewrite in_app_iff. cbn. tauto.
Qed.

Lemma In_uniq xs s : In s (uniq xs) <-> In s xs.
Proof. unfold uniq. rewrite uniq_fold. cbn. tauto. Qed.

(** ** The loop over the sites *)

Lemma siteStep_eq g acc s :
  siteStep g acc s
  = let arr := matchedPointsArray (profile g s 2021) (profile g s 2024) in
    Some (mkSnapshot
            (set string_dec s (Years.mk (profile g s 2021) (profile g s 2024))
               (byYearSite acc))
            (set string_dec s (differences arr) (differencesBySite acc))
            (set string_dec s (integralOf arr) (integralBySite acc))
            (sites acc)).
Proof. unfold siteStep. rewrite integrate_integralOf. reflexivity. Qed.

Lemma forEach_sites g l :
  forall acc,
  exists snap,
    forEachM (siteStep g) l acc = Some snap
    /\ sites snap = sites acc
    /\ forall s,
         (In s l ->
          get string_dec s (byYearSite snap)
            = Some (Years.mk (profile g s 2021) (profile g s 2024))
          /\ get string_dec s (differencesBySite snap)
             = Some (differences
                       (matchedPointsArray (profile g s 2021) (profile g s 2024)))
          /\ get string_dec s (integralBySite snap)
             = Some (integralOf
                       (matchedPointsArray (profile g s 2021) (profile g s 2024))))
         /\ (~ In s l ->
             get string_dec s (byYearSite snap)
               = get string_dec s (byYearSite acc)
             /\ get string_dec s (differencesBySite snap)
                = get string_dec s (differencesBySite acc)
             /\ get string_dec s (integralBySite snap)
                = get string_dec s (integralBySite acc)).
Proof.
  induction l as [|x l IH]; intro acc.
  - exists acc. cbn. repeat split; tauto.
  - cbn [forEachM]. rewrite siteStep_eq. cbv zeta. cbn [bind].
    match goal with |- context [forEachM _ l ?a] => destruct (IH a) as [snap [E [Hs H]]] end.
    exists snap. split; [exact E|]. split; [exact Hs|].
    intros s. destruct (H s) as [Hin Hout]. cbn [In].
    destruct (in_dec string_dec s l) as [I|NI].
    + split; [intros _; exact (Hin I)|]. intro N. exfalso. apply N. right. exact I.
    + destruct (Hout NI) as [H1 [H2 H3]]. cbn in H1, H2, H3.
      rewrite get_set in H1, H2, H3.
      destruct (string_dec s x) as [->|Nx].
      * split; [intros _; auto|]. intro N. exfalso. apply N. left. reflexivity.
      * split; [intros [Ex|I]; [congruence|contradiction]|]. intros _. auto.
Qed.

Lemma processData_total rawData :
  exists snap,
    processData rawData = Some snap
    /\ sites snap = uniq (map Row.site rawData).
Proof.
  unfold processData.
  destruct (forEach_sites (groupBy groupKey rawData)
              (uniq (map Row.site rawData))
              (mkSnapshot [] [] [] (uniq (map Row.site rawData))))
    as [snap [E [Hs _]]].
  exists snap. auto.
Qed.

Lemma siteResult_In rawData s :
  In s (map Row.site rawData) ->
  siteResult rawData s = Some (expected rawData s).
Proof.
  intro I. unfold siteResult, processData.
  destruct (forEach_sites (groupBy groupKey rawData)
              (uniq (map Row.site rawData))
              (mkSnapshot [] [] [] (uniq (map Row.site rawData))))
    as [snap [E [_ H]]].
  rewrite E. cbn [bind].
  destruct (H s) as [Hin _]. apply In_uniq in I.
  destruct (Hin I) as [H1 [H2 H3]].
  rewrite H1, H2, H3. cbn [bind].
  unfold expected, arrOf. rewrite !profile_profileOf. reflexivity.
Qed.

Lemma siteResult_notIn rawData s :
  ~ In s (map Row.site rawData) -> siteResult rawData s = None.
Proof.
  intro N. unfold siteResult, processData.
  destruct (forEach_sites (groupBy groupKey rawData)
              (uniq (map Row.site rawData))
              (mkSnapshot [] [] [] (uniq (map Row.site rawData))))
    as [snap [E [_ H]]].
  rewrite E. cbn [bind].
  destruct (H s) as [_ Hout]. rewrite <- In_uniq in N.
  destruct (Hout N) as [H1 _]. rewrite H1. reflexivity.
Qed.

Lemma Permutation_filter_compat (A : Type) (f : A -> bool) (l l' : list A) :
  Permutation l l' -> Permutation (filter f l) (filter f l').
Proof.
  induction 1 as [|x l l' P IH|x y l|l l' l'' P1 IH1 P2 IH2]; cbn.
  - constructor.
  - destruct (f x); [constructor|]; exact IH.
  - destruct (f x), (f y); try reflexivity. apply perm_swap.
  - exact (Permutation_trans IH1 IH2).
Qed.

(** The recurrence, on the reference integral. *)
Lemma integralOf_recurrence (arr : list Point.t) :
  length (integralOf arr) = length (differences arr)
  /\ (forall p, nth_error (integralOf arr) 0 = Some p -> IntPt.integral p = 0%Qc)
  /\ forall i d0 d1 p0 p1,
       nth_error (differences arr) i = Some d0 ->
       nth_error (differences arr) (S i) = Some d1 ->
       nth_error (integralOf arr) i = Some p0 ->
       nth_error (integralOf arr) (S i) = Some p1 ->
       IntPt.integral p1
       = (IntPt.integral p0
          + (toNumber (DiffPt.difference d1) + toNumber (DiffPt.difference d0))
            / two
            * (DiffPt.distAlong d1 - DiffPt.distAlong d0))%Qc.
Proof.
  split; [unfold differences; rewrite integralOf_length, length_map; reflexivity|].
  split; [apply integralOf_first|].
  intros i d0 d1 p0 p1 Hd0 Hd1 Hp0 Hp1.
  apply nth_error_differences in Hd0. destruct Hd0 as [a0 [Ha0 [Ex0 Ed0]]].
  apply nth_error_differences in Hd1. destruct Hd1 as [a1 [Ha1 [Ex1 Ed1]]].
  pose proof (integralOf_step arr i a0 a1 p0 p1 Ha0 Ha1 Hp0 Hp1) as H.
  unfold trapezoid in H. rewrite <- Ex0, <- Ex1, <- Ed0, <- Ed1 in H.
  exact H.
Qed.

(** ** The difference series of two profiles *)

Lemma StronglySorted_weaken (A : Type) (R R' : A -> A -> Prop) (l : list A) :
  (forall a b, R a b -> R' a b) ->
  StronglySorted R l -> StronglySorted R' l.
Proof.
  intros W. induction 1 as [|a l Hs IH Hf]; constructor; trivial.
  apply Forall_forall. intros b Hb. rewrite Forall_forall in Hf. auto.
Qed.

Lemma differences_keys arr : map diffKey (differences arr) = map pointKey arr.
Proof. unfold differences. rewrite map_map. reflexivity. Qed.

Lemma pointKey_paired k l r1 r2 :
  lastWithKey k l = Some r1 -> pointKey (paired r1 r2) = k.
Proof. intro H. apply lastWithKey_In in H. exact (proj2 H). Qed.

Lemma differences_common_keys d21 d24 k :
  In k (map diffKey (differences (matchedPointsArray d21 d24)))
  <-> In k (map rowKey d21) /\ In k (map rowKey d24).
Proof.
  rewrite differences_keys, in_map_iff, !lastWithKey_Some. split.
  - intros [p [Ek Ip]]. apply In_matchedPointsArray in Ip.
    destruct Ip as [k' [r1 [r2 [H1 [H2 ->]]]]].
    rewrite (pointKey_paired k' d21 r1 r2 H1) in Ek. subst k'. eauto.
  - intros [[r1 H1] [r2 H2]]. exists (paired r1 r2).
    split; [exact (pointKey_paired k d21 r1 r2 H1)|].
    apply In_matchedPointsArray. eauto 6.
Qed.

Lemma differences_entries d21 d24 d :
  In d (differences (matchedPointsArray d21 d24)) ->
  exists r1 r2,
    lastWithKey (diffKey d) d21 = Some r1
    /\ lastWithKey (diffKey d) d24 = Some r2
    /\ DiffPt.distAlong d = Row.distAlong r1
    /\ DiffPt.difference d = Some (Row.elevation r2 - Row.elevation r1)%Qc.
Proof.
  unfold differences. rewrite in_map_iff. intros [p [<- Ip]].
  apply In_matchedPointsArray in Ip.
  destruct Ip as [k [r1 [r2 [H1 [H2 ->]]]]].
  exists r1, r2. unfold diffKey. cbn.
  pose proof (pointKey_paired k d21 r1 r2 H1) as Ek.
  unfold pointKey in Ek. cbn in Ek. rewrite Ek. auto.
Qed.

Lemma differences_strict d21 d24 :
  StronglySorted Qclt
    (map DiffPt.distAlong (differences (matchedPointsArray d21 d24))).
Proof. rewrite differences_dist. apply matchedPointsArray_strict. Qed.

Lemma StronglySorted_nth (A : Type) (R : A -> A -> Prop) (l : list A) :
  StronglySorted R l ->
  forall i a b,
    nth_error l i = Some a -> nth_error l (S i) = Some b -> R a b.
Proof.
  induction 1 as [|x l Hs IH Hf]; intros i a b Ha Hb.
  - destruct i; discriminate.
  - destruct i as [|i]; cbn in Ha, Hb.
    + injection Ha as <-. rewrite Forall_forall in Hf.
      apply Hf. destruct l; [discriminate|]. injection Hb as <-. left. reflexivity.
    + exact (IH i a b Ha Hb).
Qed.

Lemma lastWithKey_split k pre mid post r1 r2 :
  rowKey r1 = k -> rowKey r2 = k ->
  ~ In k (map rowKey post) ->
  lastWithKey k (pre ++ r1 :: mid ++ r2 :: post) = Some r2.
Proof.
  intros E1 E2 N.
  replace (pre ++ r1 :: mid ++ r2 :: post)
    with ((pre ++ r1 :: mid) ++ r2 :: post)
    by (rewrite <- app_assoc; reflexivity).
  rewrite lastWithKey_app. cbn [lastWithKey].
  apply lastWithKey_None in N. rewrite N.
  destruct (FixedStr_eq_dec k (rowKey r2)); congruence.
Qed.

Lemma matchedPointsArray_nil d21 d24 :
  d21 = [] \/ d24 = [] -> matchedPointsArray d21 d24 = [].
Proof.
  intro H. destruct (matchedPointsArray d21 d24) as [|p l] eqn:E; trivial.
  assert (I : In p (matchedPointsArray d21 d24)) by (rewrite E; left; reflexivity).
  apply In_matchedPointsArray in I.
  destruct I as [k [r1 [r2 [H1 [H2 _]]]]].
  destruct H as [-> | ->]; discriminate.
Qed.

Lemma recordsOf_In rawData s y r :
  In r (recordsOf rawData s y) <->
  In r rawData /\ Row.site r = s /\ Row.year r = y.
Proof.
  unfold recordsOf. rewrite filter_In, andb_true_iff, String.eqb_eq, Z.eqb_eq.
  tauto.
Qed.

Lemma profileOf_perm rawData rawData' s y :
  tieFree rawData -> Permutation rawData rawData' ->
  profileOf rawData s y = profileOf rawData' s y.
Proof.
  intros T P. unfold profileOf.
  apply (sort_perm_eq _ Row.distAlong).
  - intros a b Ha Hb E. apply recordsOf_In in Ha, Hb.
    destruct Ha as [Ia [Sa Ya]], Hb as [Ib [Sb Yb]].
    apply T; congruence.
  - apply Permutation_filter_compat, P.
Qed.

(** ** A worked example, tied records, and a later-year-only collision *)

Example sampleAHA_result :
  option_map
    (fun res =>
       (map (fun d => (this (DiffPt.distAlong d),
                       option_map this (DiffPt.difference d)))
          (differenceSeries res),
        map (fun p => (this (IntPt.distAlong p), this (IntPt.integral p)))
          (integralSeries res)))
    (siteResult sampleAHA "AHA")
  = Some ([(0, Some 1); (1, Some (-1 # 1))], [(0, 0); (1, 0)])%Q.
Proof. vm_compute. reflexivity. Qed.

Example tied_results :
  option_map
    (fun res =>
       map (fun d => option_map this (DiffPt.difference d))
         (differenceSeries res))
    (siteResult tiedA "AHA")
  = Some [Some (-1 # 1)%Q]
  /\ option_map
       (fun res =>
          map (fun d => option_map this (DiffPt.difference d))
            (differenceSeries res))
       (siteResult tiedB "AHA")
     = Some [Some 1%Q].
Proof. split; vm_compute; reflexivity. Qed.

(** Outside the keys common to both years: two later-year records at a
    key that no earlier-year record has leave an entry whose [diff] is
    set ([elevation - null]) although [elev2021] is [null]; the filter
    on both elevations keeps it out of the series. *)
Example late_only_collision :
  option_map
    (fun p => (isSome (Point.elev2021 p), option_map this (Point.diff p)))
    (get FixedStr_eq_dec (Digits false 0)
       (matchedPoints [] (firstn 2 (skipn 2 sampleCollide))))
  = Some (false, Some (15 # 1)%Q)
  /\ matchedPointsArray [] (firstn 2 (skipn 2 sampleCollide)) = [].
Proof. split; [vm_compute; reflexivity | apply matchedPointsArray_nil; auto]. Qed.

(** * The claims *)

(** C1.  The integral series is the trapezoidal recurrence over the
    difference series: the computation never fails, yields one entry
    per difference entry, starts at 0, and each later entry adds the
    average of the two neighbouring differences times the distance
    between them; in particular an entry at the same distance as its
    predecessor adds nothing. *)
Theorem C1_trapezoidal_recurrence :
  forall arr : list Point.t,
  exists ints,
    integrate arr = Some ints
    /\ length ints = length (differences arr)
    /\ (forall p, nth_error ints 0 = Some p -> IntPt.integral p = 0%Qc)
    /\ forall i d0 d1 p0 p1,
         nth_error (differences arr) i = Some d0 ->
         nth_error (differences arr) (S i) = Some d1 ->
         nth_error ints i = Some p0 ->
         nth_error ints (S i) = Some p1 ->
         IntPt.integral p1
         = (IntPt.integral p0
            + (toNumber (DiffPt.difference d1) + toNumber (DiffPt.difference d0))
              / two
              * (DiffPt.distAlong d1 - DiffPt.distAlong d0))%Qc
         /\ (DiffPt.distAlong d1 = DiffPt.distAlong d0 ->
             IntPt.integral p1 = IntPt.integral p0).
Proof.
  intro arr. exists (integralOf arr).
  destruct (integralOf_recurrence arr) as [Hlen [H0 Hstep]].
  split; [apply integrate_integralOf|].
  split; [exact Hlen|]. split; [exact H0|].
  intros i d0 d1 p0 p1 Hd0 Hd1 Hp0 Hp1.
  pose proof (Hstep i d0 d1 p0 p1 Hd0 Hd1 Hp0 Hp1) as H.
  split; [exact H|].
  intro E. rewrite H, E. ring.
Qed.

Lemma C1_witness :
  exists p1 p2,
    integrate samplePoints
    = Some [IntPt.mk (ofZ 0) 0%Qc; p1; p2; IntPt.mk (ofZ 2) (ofZ 4)]
    /\ IntPt.integral p2 = IntPt.integral p1.
Proof.
  destruct (C1_trapezoidal_recurrence samplePoints) as [ints [E [_ [_ H]]]].
  pose proof (integrate_integralOf samplePoints) as E'.
  rewrite E in E'. injection E' as ->.
  eexists. eexists. split.
  - unfold integrate. cbn. repeat f_equal; apply Qc_is_canon; reflexivity.
  - refine (proj2 (H 1%nat _ _ _ _ eq_refl eq_refl eq_refl eq_refl) eq_refl).
Defined.

(** C5.  For every input and every site of it, the integral series has
    the length of the difference series and the same [distAlong] at
    every index, and its first value, when there is one, is 0. *)
Theorem C5_integral_shape :
  forall (rawData : list Row.t) (s : string),
    In s (map Row.site rawData) ->
    exists res,
      siteResult rawData s = Some res
      /\ length (integralSeries res) = length (differenceSeries res)
      /\ map IntPt.distAlong (integralSeries res)
         = map DiffPt.distAlong (differenceSeries res)
      /\ match integralSeries res with
         | [] => True
         | p :: _ => IntPt.integral p = 0%Qc
         end.
Proof.
  intros rawData s I. exists (expected rawData s).
  split; [apply siteResult_In, I|]. cbn [expected integralSeries differenceSeries].
  split; [|split].
  - unfold differences. rewrite integralOf_length, length_map. reflexivity.
  - rewrite integralOf_dist, differences_dist. reflexivity.
  - destruct (arrOf rawData s); cbn; trivial.
Qed.

Lemma C5_witness :
  exists res,
    siteResult sampleAHA "AHA" = Some res
    /\ length (integralSeries res) = length (differenceSeries res)
    /\ map IntPt.distAlong (integralSeries res)
       = map DiffPt.distAlong (differenceSeries res)
    /\ match integralSeries res with
       | [] => True
       | p :: _ => IntPt.integral p = 0%Qc
       end.
Proof.
  apply (C5_integral_shape sampleAHA "AHA"). simpl. left. reflexivity.
Defined.




(** C2.  For every site, the difference series has one entry per
    rounding key that occurs in both of the site's profiles and none
    for any other key; the difference of an entry is the elevation of
    the last later-year record at its key minus the elevation of the
    last earlier-year record at its key; and the series is sorted
    ascending by [distAlong]. *)
Theorem C2_difference_series :
  forall (rawData : list Row.t) (s : string),
    In s (map Row.site rawData) ->
    exists res,
      siteResult rawData s = Some res
      /\ NoDup (map diffKey (differenceSeries res))
      /\ (forall k,
            In k (map diffKey (differenceSeries res))
            <-> In k (map rowKey (Years.y2021 (profiles res)))
                /\ In k (map rowKey (Years.y2024 (profiles res))))
      /\ (forall d,
            In d (differenceSeries res) ->
            exists r1 r2,
              lastWithKey (diffKey d) (Years.y2021 (profiles res)) = Some r1
              /\ lastWithKey (diffKey d) (Years.y2024 (profiles res)) = Some r2
              /\ DiffPt.difference d
                 = Some (Row.elevation r2 - Row.elevation r1)%Qc)
      /\ StronglySorted Qcle (map DiffPt.distAlong (differenceSeries res)).
Proof.
  intros rawData s I. exists (expected rawData s).
  split; [apply siteResult_In, I|].
  cbn [expected differenceSeries profiles Years.y2021 Years.y2024].
  unfold arrOf.
  split; [|split; [|split]].
  - rewrite differences_keys. apply matchedPointsArray_keys.
  - intro k. apply differences_common_keys.
  - intros d Hd. apply differences_entries in Hd.
    destruct Hd as [r1 [r2 [H1 [H2 [_ H3]]]]]. eauto.
  - apply (StronglySorted_weaken _ Qclt); [apply Qclt_le_weak|].
    apply differences_strict.
Qed.

Lemma C2_witness :
  exists res,
    siteResult sampleCollide "AHA" = Some res
    /\ NoDup (map diffKey (differenceSeries res))
    /\ (forall k,
          In k (map diffKey (differenceSeries res))
          <-> In k (map rowKey (Years.y2021 (profiles res)))
              /\ In k (map rowKey (Years.y2024 (profiles res))))
    /\ (forall d,
          In d (differenceSeries res) ->
          exists r1 r2,
            lastWithKey (diffKey d) (Years.y2021 (profiles res)) = Some r1
            /\ lastWithKey (diffKey d) (Years.y2024 (profiles res)) = Some r2
            /\ DiffPt.difference d
               = Some (Row.elevation r2 - Row.elevation r1)%Qc)
    /\ StronglySorted Qcle (map DiffPt.distAlong (differenceSeries res)).
Proof.
  apply (C2_difference_series sampleCollide "AHA"). simpl. left. reflexivity.
Defined.

(** C10.  For every input, the [distAlong] values of a site's
    difference series, and of its integral series, are strictly
    increasing, so that every width the integrator meets is strictly
    positive. *)
Theorem C10_strictly_increasing :
  forall (rawData : list Row.t) (s : string),
    In s (map Row.site rawData) ->
    exists res,
      siteResult rawData s = Some res
      /\ StronglySorted Qclt (map DiffPt.distAlong (differenceSeries res))
      /\ StronglySorted Qclt (map IntPt.distAlong (integralSeries res))
      /\ forall i d0 d1,
           nth_error (differenceSeries res) i = Some d0 ->
           nth_error (differenceSeries res) (S i) = Some d1 ->
           (0 < DiffPt.distAlong d1 - DiffPt.distAlong d0)%Qc.
Proof.
  intros rawData s I. exists (expected rawData s).
  split; [apply siteResult_In, I|].
  cbn [expected differenceSeries integralSeries]. unfold arrOf.
  split; [apply differences_strict|].
  split; [rewrite integralOf_dist; apply matchedPointsArray_strict|].
  intros i d0 d1 H0 H1. apply sub_pos.
  apply (StronglySorted_nth _ _ _
           (differences_strict (profileOf rawData s 2021)
              (profileOf rawData s 2024)) i);
    rewrite nth_error_map; [rewrite H0 | rewrite H1]; reflexivity.
Qed.

Lemma C10_witness :
  exists res,
    siteResult sampleAHA "AHA" = Some res
    /\ StronglySorted Qclt (map DiffPt.distAlong (differenceSeries res))
    /\ StronglySorted Qclt (map IntPt.distAlong (integralSeries res))
    /\ forall i d0 d1,
         nth_error (differenceSeries res) i = Some d0 ->
         nth_error (differenceSeries res) (S i) = Some d1 ->
         (0 < DiffPt.distAlong d1 - DiffPt.distAlong d0)%Qc.
Proof.
  apply (C10_strictly_increasing sampleAHA "AHA"). simpl. left. reflexivity.
Defined.

(** C3.  When two earlier-year records round to the same key, the one
    iterated last leaves its entry in the key table: the table (always
    produced, with distinct keys) holds at that key the [distAlong] and
    elevation of the later of the two. *)
Theorem C3_early_last_write_wins :
  forall (pre mid post : list Row.t) (r1 r2 : Row.t),
    rowKey r1 = rowKey r2 ->
    ~ In (rowKey r2) (map rowKey post) ->
    get FixedStr_eq_dec (rowKey r1)
      (table2021 (pre ++ r1 :: mid ++ r2 :: post))
    = Some (Point.mk (Row.distAlong r2) (Some (Row.elevation r2)) None None)
    /\ NoDup (keys (table2021 (pre ++ r1 :: mid ++ r2 :: post))).
Proof.
  intros pre mid post r1 r2 E N. split.
  - rewrite get_table2021, E.
    rewrite (lastWithKey_split (rowKey r2) pre mid post r1 r2); auto.
  - unfold table2021.
    apply (wellKeyed_fold step2021 wellKeyed_step2021).
    split; constructor.
Qed.

Lemma C3_witness :
  get FixedStr_eq_dec (Digits false 0) (table2021 (firstn 2 sampleCollide))
  = Some (Point.mk (Q2Qc (2 # 10000)) (Some (ofZ 12)) None None)
  /\ NoDup (keys (table2021 (firstn 2 sampleCollide))).
Proof.
  refine (C3_early_last_write_wins [] [] []
            (Row.mk "AHA" 2021 (Q2Qc (1 # 10000)) (ofZ 10))
            (Row.mk "AHA" 2021 (Q2Qc (2 # 10000)) (ofZ 12)) _ _).
  - reflexivity.
  - simpl. tauto.
Defined.

(** C9.  When two later-year records round to the same key, the one
    iterated last decides the entry's later-year elevation, and when
    the key carries an earlier-year elevation the entry's [diff] is
    that last record's elevation minus the stored earlier-year one. *)
Theorem C9_late_last_write_wins :
  forall (d21 pre mid post : list Row.t) (r1 r2 : Row.t),
    rowKey r1 = rowKey r2 ->
    ~ In (rowKey r2) (map rowKey post) ->
    exists p,
      get FixedStr_eq_dec (rowKey r1)
        (matchedPoints d21 (pre ++ r1 :: mid ++ r2 :: post)) = Some p
      /\ Point.elev2024 p = Some (Row.elevation r2)
      /\ forall e,
           lastWithKey (rowKey r1) d21 = Some e ->
           Point.elev2021 p = Some (Row.elevation e)
           /\ Point.diff p = Some (Row.elevation r2 - Row.elevation e)%Qc.
Proof.
  intros d21 pre mid post r1 r2 E N.
  assert (L : lastWithKey (rowKey r1) (pre ++ r1 :: mid ++ r2 :: post) = Some r2).
  { rewrite E. apply lastWithKey_split; auto. }
  destruct (lastWithKey (rowKey r1) d21) as [e|] eqn:E1.
  - exists (paired e r2).
    split; [apply matchedPoints_both; assumption|].
    split; [reflexivity|].
    intros e' He. injection He as <-. split; reflexivity.
  - assert (G : get FixedStr_eq_dec (rowKey r1) (table2021 d21) = None).
    { rewrite get_table2021, E1. reflexivity. }
    destruct (get_fold2024_fresh (rowKey r1) _ (table2021 d21) r2 G L)
      as [p [Hp [_ H24]]].
    exists p. split; [exact Hp|]. split; [exact H24|].
    intros e He. discriminate He.
Qed.

Lemma C9_witness :
  exists p,
    get FixedStr_eq_dec (Digits false 0)
      (matchedPoints (firstn 2 sampleCollide)
         (firstn 2 (skipn 2 sampleCollide))) = Some p
    /\ Point.elev2024 p = Some (ofZ 15)
    /\ forall e,
         lastWithKey (Digits false 0) (firstn 2 sampleCollide) = Some e ->
         Point.elev2021 p = Some (Row.elevation e)
         /\ Point.diff p = Some (ofZ 15 - Row.elevation e)%Qc.
Proof.
  refine (C9_late_last_write_wins (firstn 2 sampleCollide) [] [] []
            (Row.mk "AHA" 2024 (Q2Qc (3 # 10000)) (ofZ 11))
            (Row.mk "AHA" 2024 (Q2Qc (4 # 10000)) (ofZ 15)) _ _).
  - reflexivity.
  - simpl. tauto.
Defined.

(** C8.  A matched point whose rounding key occurs in both profiles
    carries the [distAlong] of the last earlier-year record at that
    key, and its [diff] is present exactly when both elevations are;
    here all three are present. *)
Theorem C8_matched_point_fields :
  forall (d21 d24 : list Row.t) (k : FixedStr),
    In k (map rowKey d21) ->
    In k (map rowKey d24) ->
    exists p r1,
      get FixedStr_eq_dec k (matchedPoints d21 d24) = Some p
      /\ lastWithKey k d21 = Some r1
      /\ Point.distAlong p = Row.distAlong r1
      /\ (isSome (Point.diff p) = true
          <-> isSome (Point.elev2021 p) = true
              /\ isSome (Point.elev2024 p) = true)
      /\ isSome (Point.diff p) = true.
Proof.
  intros d21 d24 k H1 H2.
  apply lastWithKey_Some in H1, H2.
  destruct H1 as [r1 H1], H2 as [r2 H2].
  exists (paired r1 r2), r1.
  split; [apply matchedPoints_both; assumption|].
  cbn. tauto.
Qed.

Lemma C8_witness :
  exists p r1,
    get FixedStr_eq_dec (Digits false 0)
      (matchedPoints (firstn 2 sampleCollide)
         (firstn 2 (skipn 2 sampleCollide))) = Some p
    /\ lastWithKey (Digits false 0) (firstn 2 sampleCollide) = Some r1
    /\ Point.distAlong p = Row.distAlong r1
    /\ (isSome (Point.diff p) = true
        <-> isSome (Point.elev2021 p) = true
            /\ isSome (Point.elev2024 p) = true)
    /\ isSome (Point.diff p) = true.
Proof.
  apply (C8_matched_point_fields (firstn 2 sampleCollide)
           (firstn 2 (skipn 2 sampleCollide)) (Digits false 0)).
  - vm_compute. left. reflexivity.
  - vm_compute. left. reflexivity.
Defined.

(** C4.  For a site without records for one of the two years the
    pipeline still yields a result: the profile of the missing year is
    empty, each profile holds the records of its year, and the
    difference and integral series are empty. *)
Theorem C4_single_year_site :
  forall (rawData : list Row.t) (s : string),
    In s (map Row.site rawData) ->
    recordsOf rawData s 2021 = [] \/ recordsOf rawData s 2024 = [] ->
    exists res,
      siteResult rawData s = Some res
      /\ (recordsOf rawData s 2021 = [] -> Years.y2021 (profiles res) = [])
      /\ (recordsOf rawData s 2024 = [] -> Years.y2024 (profiles res) = [])
      /\ Permutation (Years.y2021 (profiles res)) (recordsOf rawData s 2021)
      /\ Permutation (Years.y2024 (profiles res)) (recordsOf rawData s 2024)
      /\ differenceSeries res = []
      /\ integralSeries res = [].
Proof.
  intros rawData s I H. exists (expected rawData s).
  split; [apply siteResult_In, I|].
  cbn [expected profiles differenceSeries integralSeries Years.y2021 Years.y2024].
  assert (A : arrOf rawData s = []).
  { unfold arrOf, profileOf. apply matchedPointsArray_nil.
    destruct H as [-> | ->]; auto. }
  rewrite A. unfold profileOf.
  split; [intros ->; reflexivity|].
  split; [intros ->; reflexivity|].
  split; [apply (sort_perm _ Row.distAlong)|].
  split; [apply (sort_perm _ Row.distAlong)|].
  split; reflexivity.
Qed.

Lemma C4_witness :
  exists res,
    siteResult sampleOneYear "AHA" = Some res
    /\ (recordsOf sampleOneYear "AHA" 2021 = [] -> Years.y2021 (profiles res) = [])
    /\ (recordsOf sampleOneYear "AHA" 2024 = [] -> Years.y2024 (profiles res) = [])
    /\ Permutation (Years.y2021 (profiles res))
         (recordsOf sampleOneYear "AHA" 2021)
    /\ Permutation (Years.y2024 (profiles res))
         (recordsOf sampleOneYear "AHA" 2024)
    /\ differenceSeries res = []
    /\ integralSeries res = [].
Proof.
  apply (C4_single_year_site sampleOneYear "AHA").
  - simpl. left. reflexivity.
  - right. reflexivity.
Defined.

(** C7, as stated, fails: two orders of the same records, two of which
    tie on [distAlong], give different results for the site. *)
Lemma C7_counterexample :
  ~ (forall (rawData rawData' : list Row.t) (s : string),
        Permutation rawData rawData' ->
        siteResult rawData s = siteResult rawData' s).
Proof.
  intro H. specialize (H tiedA tiedB "AHA"%string (perm_swap _ _ _)).
  rewrite !siteResult_In in H by (simpl; left; reflexivity).
  apply (f_equal (fun o =>
           match o with
           | Some r =>
               map (fun d => option_map this (DiffPt.difference d))
                 (differenceSeries r)
           | None => []
           end)) in H.
  vm_compute in H. discriminate H.
Qed.

(** C7, amended.  When records that tie on site, year and [distAlong]
    are identical, every permutation of the input gives, for every
    site, the same profiles, difference series and integral series. *)
Theorem C7_permutation_invariance :
  forall (rawData rawData' : list Row.t) (s : string),
    tieFree rawData ->
    Permutation rawData rawData' ->
    siteResult rawData s = siteResult rawData' s.
Proof.
  intros rawData rawData' s T P.
  destruct (in_dec string_dec s (map Row.site rawData)) as [I|N].
  - assert (I' : In s (map Row.site rawData')).
    { exact (Permutation_in _ (Permutation_map Row.site P) I). }
    rewrite !siteResult_In by assumption. f_equal.
    unfold expected, arrOf.
    rewrite !(profileOf_perm rawData rawData') by assumption. reflexivity.
  - assert (N' : ~ In s (map Row.site rawData')).
    { intro I'. apply N.
      exact (Permutation_in _ (Permutation_sym (Permutation_map Row.site P)) I'). }
    rewrite !siteResult_notIn by assumption. reflexivity.
Qed.

Lemma C7_witness :
  siteResult sampleAHA "AHA" = siteResult (rev sampleAHA) "AHA".
Proof.
  apply (C7_permutation_invariance sampleAHA (rev sampleAHA) "AHA").
  - intros a b Ha Hb Es Ey Ed. simpl in Ha, Hb.
    repeat (destruct Ha as [<- | Ha]; [|]); try contradiction;
      repeat (destruct Hb as [<- | Hb]; [|]); try contradiction;
      try reflexivity;
      try (apply (f_equal this) in Ed; discriminate Ed);
      try discriminate Ey.
  - apply Permutation_rev.
Defined.

(** * Further properties of the code *)

(** ** The site set *)

Lemma includes_In xs s : includes xs s = true <-> In s xs.
Proof.
  unfold includes. rewrite existsb_exists. split.
  - intros [x [I E]]. apply String.eqb_eq in E. congruence.
  - intro I. exists s. split; [exact I | apply String.eqb_refl].
Qed.

Lemma includes_notIn xs s : includes xs s = false <-> ~ In s xs.
Proof.
  rewrite <- includes_In. destruct (includes xs s); split; congruence.
Qed.

Lemma filter_filter (A : Type) (f g : A -> bool) (l : list A) :
  filter f (filter g l) = filter (fun x => f x && g x) l.
Proof.
  induction l as [|a l IH]; cbn; [reflexivity|].
  destruct (g a); cbn; destruct (f a); cbn; congruence.
Qed.

Lemma uniq_fold_firstOccurrences xs :
  forall acc,
    fold_left
      (fun acc s => if existsb (String.eqb s) acc then acc else acc ++ [s])
      xs acc
    = acc ++ filter (fun s => negb (includes acc s)) (firstOccurrences xs).
Proof.
  induction xs as [|x xs IH]; intro acc; cbn [fold_left firstOccurrences filter].
  - rewrite app_nil_r. reflexivity.
  - rewrite IH. fold (includes acc x).
    destruct (includes acc x) eqn:E; cbn [negb].
    + f_equal. rewrite filter_filter. apply filter_ext_in. intros a _.
      destruct (includes acc a) eqn:Ea; cbn; [reflexivity|].
      destruct (String.eqb_spec a x) as [->|]; [congruence | reflexivity].
    + rewrite <- app_assoc. cbn [app]. f_equal. f_equal.
      rewrite filter_filter. apply filter_ext. intro a.
      unfold includes. rewrite existsb_app. cbn [existsb].
      rewrite orb_false_r, negb_orb. reflexivity.
Qed.

Lemma uniq_firstOccurrences xs : uniq xs = firstOccurrences xs.
Proof.
  unfold uniq. rewrite uniq_fold_firstOccurrences. cbn [app].
  unfold includes. cbn [existsb negb].
  induction (firstOccurrences xs) as [|a l IH]; cbn [filter]; congruence.
Qed.

Lemma NoDup_filter_str (f : string -> bool) (l : list string) :
  NoDup l -> NoDup (filter f l).
Proof.
  induction 1 as [|a l Hn Hd IH]; cbn; [constructor|].
  destruct (f a); [|exact IH].
  constructor; [|exact IH]. intro I. apply filter_In in I. tauto.
Qed.

Lemma firstOccurrences_NoDup xs : NoDup (firstOccurrences xs).
Proof.
  induction xs as [|x xs IH]; cbn; constructor.
  - intro I. apply filter_In in I. destruct I as [_ E].
    rewrite String.eqb_refl in E. discriminate E.
  - apply NoDup_filter_str, IH.
Qed.

(** X1.  The site list of the snapshot names every site of the input
    exactly once, in the order in which the sites first appear: the
    site of the first record comes first, followed by the site list of
    the remaining records without it. *)
Theorem X1_sites_first_appearance :
  forall rawData : list Row.t,
  exists snap,
    processData rawData = Some snap
    /\ NoDup (sites snap)
    /\ (forall s, In s (sites snap) <-> In s (map Row.site rawData))
    /\ match rawData with
       | [] => sites snap = []
       | r :: rest =>
           sites snap
           = Row.site r
             :: filter (fun s => negb (String.eqb s (Row.site r)))
                  (uniq (map Row.site rest))
       end.
Proof.
  intro rawData. destruct (processData_total rawData) as [snap [E Hs]].
  exists snap. split; [exact E|]. rewrite Hs.
  split; [rewrite uniq_firstOccurrences; apply firstOccurrences_NoDup|].
  split; [intro s; apply In_uniq|].
  destruct rawData as [|r rest]; [reflexivity|].
  rewrite !uniq_firstOccurrences. reflexivity.
Qed.

(** X2.  The selection that [processData] sets is empty for an empty
    input and otherwise holds just the site of the first record. *)
Theorem X2_initial_selection :
  forall rawData : list Row.t,
  exists snap,
    processData rawData = Some snap
    /\ initialSelection (sites snap)
       = match rawData with
         | [] => []
         | r :: _ => [Row.site r]
         end.
Proof.
  intro rawData. destruct (processData_total rawData) as [snap [E Hs]].
  exists snap. split; [exact E|]. rewrite Hs, uniq_firstOccurrences.
  destruct rawData; reflexivity.
Qed.

(** X3.  For every name in the site list, the three per-site objects
    of the snapshot each hold an entry, and the three entries belong
    together: the difference series and the integral series stored for
    the site are the ones computed from the two profiles stored for
    that same site. *)
Theorem X3_site_entries_belong_together :
  forall rawData : list Row.t,
  exists snap,
    processData rawData = Some snap
    /\ forall s,
         In s (sites snap) ->
         exists y ds ints,
           get string_dec s (byYearSite snap) = Some y
           /\ get string_dec s (differencesBySite snap) = Some ds
           /\ get string_dec s (integralBySite snap) = Some ints
           /\ ds = differences
                     (matchedPointsArray (Years.y2021 y) (Years.y2024 y))
           /\ integrate (matchedPointsArray (Years.y2021 y) (Years.y2024 y))
              = Some ints.
Proof.
  intro rawData. unfold processData.
  destruct (forEach_sites (groupBy groupKey rawData)
              (uniq (map Row.site rawData))
              (mkSnapshot [] [] [] (uniq (map Row.site rawData))))
    as [snap [E [Hs H]]].
  exists snap. split; [exact E|]. intros s I.
  rewrite Hs in I. cbn [sites] in I.
  destruct (H s) as [Hin _]. destruct (Hin I) as [H1 [H2 H3]].
  eexists. eexists. eexists.
  split; [exact H1|]. split; [exact H2|]. split; [exact H3|].
  cbn [Years.y2021 Years.y2024].
  split; [reflexivity | apply integrate_integralOf].
Qed.

(** ** Profiles *)

Lemma Qc_eq_bool_true (x y : Qc) : Qc_eq_bool x y = true <-> x = y.
Proof.
  split; [apply Qc_eq_bool_correct|].
  intros ->. unfold Qc_eq_bool. destruct (Qc_eq_dec y y); congruence.
Qed.

Section StableSort.
Variable A : Type.
Variable key : A -> num.
Variable d : num.

Let cmp (a b : A) : num := (key a - key b)%Qc.
Let tied (a : A) : bool := Qc_eq_bool (key a) d.

Lemma filter_insert_tied x l :
  filter tied (insert cmp x l) = filter tied (x :: l).
Proof.
  induction l as [|y l IH]; [reflexivity|].
  cbn [insert]. destruct (Qc_ltb 0%Qc (cmp x y)) eqn:E; [|reflexivity].
  cbn [filter] in IH |- *. rewrite IH.
  destruct (tied x) eqn:Tx; [|reflexivity].
  destruct (tied y) eqn:Ty; [|reflexivity].
  exfalso. unfold tied in Tx, Ty.
  apply Qc_eq_bool_true in Tx, Ty.
  apply Qc_ltb_lt in E. unfold cmp in E. apply -> sub_pos in E.
  rewrite Tx, Ty in E. exact (Qclt_not_eq _ _ E eq_refl).
Qed.

Lemma filter_sort_tied l : filter tied (sort cmp l) = filter tied l.
Proof.
  induction l as [|x l IH]; [reflexivity|].
  cbn [sort fold_right]. fold (sort cmp l).
  rewrite filter_insert_tied. cbn [filter]. rewrite IH. reflexivity.
Qed.
End StableSort.

(** X4.  For every site of the input, each of its two profiles is
    sorted ascending by [distAlong] and holds exactly the records of
    that site and year, each as often as the input does: no record of
    another site or year is grouped with them. *)
Theorem X4_profiles_sorted_and_exact :
  forall (rawData : list Row.t) (s : string),
    In s (map Row.site rawData) ->
    exists res,
      siteResult rawData s = Some res
      /\ StronglySorted (fun a b => (Row.distAlong a <= Row.distAlong b)%Qc)
           (Years.y2021 (profiles res))
      /\ StronglySorted (fun a b => (Row.distAlong a <= Row.distAlong b)%Qc)
           (Years.y2024 (profiles res))
      /\ Permutation (Years.y2021 (profiles res))
           (filter (fun r => String.eqb (Row.site r) s && Z.eqb (Row.year r) 2021)
              rawData)
      /\ Permutation (Years.y2024 (profiles res))
           (filter (fun r => String.eqb (Row.site r) s && Z.eqb (Row.year r) 2024)
              rawData).
Proof.
  intros rawData s I. exists (expected rawData s).
  split; [apply siteResult_In, I|].
  cbn [expected profiles Years.y2021 Years.y2024]. unfold profileOf.
  split; [apply (sort_sorted _ Row.distAlong)|].
  split; [apply (sort_sorted _ Row.distAlong)|].
  split; apply (sort_perm _ Row.distAlong).
Qed.

Lemma X4_witness :
  exists res,
    siteResult sampleSchedule "AHA" = Some res
    /\ StronglySorted (fun a b => (Row.distAlong a <= Row.distAlong b)%Qc)
         (Years.y2021 (profiles res))
    /\ StronglySorted (fun a b => (Row.distAlong a <= Row.distAlong b)%Qc)
         (Years.y2024 (profiles res))
    /\ Permutation (Years.y2021 (profiles res))
         (filter (fun r => String.eqb (Row.site r) "AHA" && Z.eqb (Row.year r) 2021)
            sampleSchedule)
    /\ Permutation (Years.y2024 (profiles res))
         (filter (fun r => String.eqb (Row.site r) "AHA" && Z.eqb (Row.year r) 2024)
            sampleSchedule).
Proof.
  apply (X4_profiles_sorted_and_exact sampleSchedule "AHA").
  simpl. right. left. reflexivity.
Defined.

(** X5.  Sorting a profile is stable: the records of a site and year
    that share a [distAlong] appear in the profile in their input
    order. *)
Theorem X5_profiles_keep_tied_order :
  forall (rawData : list Row.t) (s : string) (d : num),
    In s (map Row.site rawData) ->
    exists res,
      siteResult rawData s = Some res
      /\ atDistance d (Years.y2021 (profiles res))
         = atDistance d (recordsOf rawData s 2021)
      /\ atDistance d (Years.y2024 (profiles res))
         = atDistance d (recordsOf rawData s 2024).
Proof.
  intros rawData s d I. exists (expected rawData s).
  split; [apply siteResult_In, I|].
  cbn [expected profiles Years.y2021 Years.y2024]. unfold profileOf, atDistance.
  split; apply (filter_sort_tied _ Row.distAlong d).
Qed.

Lemma X5_witness :
  exists res,
    siteResult tiedA "AHA" = Some res
    /\ atDistance (ofZ 0) (Years.y2021 (profiles res))
       = atDistance (ofZ 0) (recordsOf tiedA "AHA" 2021)
    /\ atDistance (ofZ 0) (Years.y2024 (profiles res))
       = atDistance (ofZ 0) (recordsOf tiedA "AHA" 2024).
Proof.
  apply (X5_profiles_keep_tied_order tiedA "AHA" (ofZ 0)).
  simpl. left. reflexivity.
Defined.

(** ** The key table and the size of the series *)

Lemma matchedPoints_early_only k d21 d24 r1 :
  lastWithKey k d21 = Some r1 ->
  lastWithKey k d24 = None ->
  get FixedStr_eq_dec k (matchedPoints d21 d24) = Some (earlyEntry r1).
Proof.
  intros H1 H2. unfold matchedPoints.
  rewrite get_fold2024_absent, get_table2021, H1 by exact H2. reflexivity.
Qed.

Lemma matchedPoints_late_only k d21 d24 r2 :
  lastWithKey k d21 = None ->
  lastWithKey k d24 = Some r2 ->
  exists p,
    get FixedStr_eq_dec k (matchedPoints d21 d24) = Some p
    /\ Point.elev2021 p = None
    /\ Point.elev2024 p = Some (Row.elevation r2).
Proof.
  intros H1 H2. unfold matchedPoints.
  apply get_fold2024_fresh; [|exact H2].
  rewrite get_table2021, H1. reflexivity.
Qed.

Lemma matchedPoints_neither k d21 d24 :
  lastWithKey k d21 = None ->
  lastWithKey k d24 = None ->
  get FixedStr_eq_dec k (matchedPoints d21 d24) = None.
Proof.
  intros H1 H2. unfold matchedPoints.
  rewrite get_fold2024_absent, get_table2021, H1 by exact H2. reflexivity.
Qed.

(** X6.  The key table of a site has one entry per rounding key that
    occurs in either profile and no other entry.  A key that only the
    earlier year has keeps the entry of its last record there, with
    [elev2024] and [diff] null; a key that only the later year has
    carries no earlier-year elevation. *)
Theorem X6_key_table_union :
  forall d21 d24 : list Row.t,
    NoDup (keys (matchedPoints d21 d24))
    /\ (forall k,
          In k (keys (matchedPoints d21 d24))
          <-> In k (map rowKey d21) \/ In k (map rowKey d24))
    /\ (forall k r1,
          lastWithKey k d21 = Some r1 ->
          ~ In k (map rowKey d24) ->
          get FixedStr_eq_dec k (matchedPoints d21 d24)
          = Some (Point.mk (Row.distAlong r1) (Some (Row.elevation r1))
                    None None))
    /\ (forall k p,
          ~ In k (map rowKey d21) ->
          get FixedStr_eq_dec k (matchedPoints d21 d24) = Some p ->
          Point.elev2021 p = None).
Proof.
  intros d21 d24.
  split; [exact (proj1 (wellKeyed_matchedPoints d21 d24))|].
  split; [|split].
  - intro k. rewrite (get_Some_keys _ _ FixedStr_eq_dec), !lastWithKey_Some.
    destruct (lastWithKey k d21) as [r1|] eqn:E1;
      destruct (lastWithKey k d24) as [r2|] eqn:E2.
    + rewrite (matchedPoints_both _ _ _ _ _ E1 E2). split; eauto.
    + rewrite (matchedPoints_early_only _ _ _ _ E1 E2). split; eauto.
    + destruct (matchedPoints_late_only _ _ _ _ E1 E2) as [p [Hp _]].
      rewrite Hp. split; eauto.
    + rewrite (matchedPoints_neither _ _ _ E1 E2).
      split; [intros [v H]; discriminate H|].
      intros [[r H]|[r H]]; discriminate H.
  - intros k r1 H1 N. apply lastWithKey_None in N.
    exact (matchedPoints_early_only _ _ _ _ H1 N).
  - intros k p N Hp. apply lastWithKey_None in N.
    destruct (lastWithKey k d24) as [r2|] eqn:E2.
    + destruct (matchedPoints_late_only _ _ _ _ N E2) as [q [Hq [Hn _]]].
      congruence.
    + rewrite (matchedPoints_neither _ _ _ N E2) in Hp. discriminate Hp.
Qed.

Lemma X6_witness :
  get FixedStr_eq_dec (Digits false 5000)
    (matchedPoints (recordsOf sampleCollide "AHA" 2021)
       (recordsOf sampleCollide "AHA" 2024))
  = Some (Point.mk (ofZ 5) (Some (ofZ 20)) None None).
Proof.
  refine (proj1 (proj2 (proj2 (X6_key_table_union
                  (recordsOf sampleCollide "AHA" 2021)
                  (recordsOf sampleCollide "AHA" 2024))))
            (Digits false 5000) (row "AHA" 2021 5 20) _ _).
  - vm_compute. reflexivity.
  - vm_compute. intros [H|[H|[]]]; discriminate H.
Defined.

Lemma differences_length_le d21 d24 :
  (length (differences (matchedPointsArray d21 d24)) <= length d21)%nat
  /\ (length (differences (matchedPointsArray d21 d24)) <= length d24)%nat.
Proof.
  pose proof (matchedPointsArray_keys d21 d24) as Hd.
  rewrite <- differences_keys in Hd.
  split.
  - rewrite <- (length_map diffKey), <- (length_map rowKey d21).
    apply NoDup_incl_length; [exact Hd|].
    intros k Hk. apply differences_common_keys in Hk. tauto.
  - rewrite <- (length_map diffKey), <- (length_map rowKey d24).
    apply NoDup_incl_length; [exact Hd|].
    intros k Hk. apply differences_common_keys in Hk. tauto.
Qed.

(** X7.  The difference series of a site, and with it the integral
    series, never has more entries than either of the site's
    profiles. *)
Theorem X7_series_no_longer_than_profiles :
  forall (rawData : list Row.t) (s : string),
    In s (map Row.site rawData) ->
    exists res,
      siteResult rawData s = Some res
      /\ (length (differenceSeries res)
          <= Nat.min (length (Years.y2021 (profiles res)))
               (length (Years.y2024 (profiles res))))%nat
      /\ (length (integralSeries res)
          <= Nat.min (length (Years.y2021 (profiles res)))
               (length (Years.y2024 (profiles res))))%nat.
Proof.
  intros rawData s I. exists (expected rawData s).
  split; [apply siteResult_In, I|].
  cbn [expected profiles differenceSeries integralSeries Years.y2021 Years.y2024].
  unfold arrOf.
  destruct (differences_length_le (profileOf rawData s 2021)
              (profileOf rawData s 2024)) as [H1 H2].
  rewrite integralOf_length.
  unfold differences in H1, H2 |- *. rewrite length_map in H1, H2 |- *.
  split; apply Nat.min_glb; assumption.
Qed.

Lemma X7_witness :
  exists res,
    siteResult sampleCollide "AHA" = Some res
    /\ (length (differenceSeries res)
        <= Nat.min (length (Years.y2021 (profiles res)))
             (length (Years.y2024 (profiles res))))%nat
    /\ (length (integralSeries res)
        <= Nat.min (length (Years.y2021 (profiles res)))
             (length (Years.y2024 (profiles res))))%nat.
Proof.
  apply (X7_series_no_longer_than_profiles sampleCollide "AHA").
  simpl. left. reflexivity.
Defined.

(** ** The rounding key *)

Lemma this_sub (x y : Qc) : (this (x - y)%Qc == this x - this y)%Q.
Proof.
  unfold Qcminus, Qcplus, Qcopp, Q2Qc. cbn [this].
  rewrite !Qred_correct. reflexivity.
Qed.

Lemma this_opp (x : Qc) : (this (- x)%Qc == - this x)%Q.
Proof. unfold Qcopp, Q2Qc. cbn [this]. apply Qred_correct. Qed.

Lemma this_scaled (a : Qc) :
  (this (a * ofZ 1000 + Q2Qc (1 # 2))%Qc == this a * 1000 + (1 # 2))%Q.
Proof.
  unfold Qcplus, Qcmult, ofZ, Q2Qc. cbn [this].
  rewrite !Qred_correct. reflexivity.
Qed.

Lemma this_thousandth : (this thousandth == 1 # 1000)%Q.
Proof. reflexivity. Qed.

(** Two magnitudes with the same nearest multiple of 0.001 are less
    than 0.001 apart. *)
Lemma same_digits_close (a b : Qc) :
  Qfloor (a * ofZ 1000 + Q2Qc (1 # 2))%Qc
  = Qfloor (b * ofZ 1000 + Q2Qc (1 # 2))%Qc ->
  (this a - this b < 1 # 1000)%Q /\ (this b - this a < 1 # 1000)%Q.
Proof.
  intro E.
  rewrite (Qfloor_comp _ _ (this_scaled a)) in E.
  rewrite (Qfloor_comp _ _ (this_scaled b)) in E.
  pose proof (Qfloor_le (this a * 1000 + (1 # 2))) as La.
  pose proof (Qlt_floor (this a * 1000 + (1 # 2))) as Ua.
  pose proof (Qfloor_le (this b * 1000 + (1 # 2))) as Lb.
  pose proof (Qlt_floor (this b * 1000 + (1 # 2))) as Ub.
  rewrite E in La, Ua. rewrite inject_Z_plus in Ua, Ub.
  change (inject_Z 1) with 1%Q in Ua, Ub.
  split; lra.
Qed.

Lemma Qc_close_of_Q (x y : Qc) :
  (this x - this y < 1 # 1000)%Q /\ (this y - this x < 1 # 1000)%Q ->
  (x - y < thousandth)%Qc /\ (y - x < thousandth)%Qc.
Proof.
  intros [H1 H2]. unfold Qclt. rewrite !this_sub, this_thousandth. tauto.
Qed.

Lemma toFixed3_close (x y : Qc) :
  toFixed3 x = toFixed3 y ->
  (x - y < thousandth)%Qc /\ (y - x < thousandth)%Qc.
Proof.
  unfold toFixed3.
  destruct (Qc_leb (ofZ (10 ^ 21)) (if Qc_ltb x 0%Qc then (- x)%Qc else x));
    destruct (Qc_leb (ofZ (10 ^ 21)) (if Qc_ltb y 0%Qc then (- y)%Qc else y));
    intro H; try discriminate H; injection H as Hn Hv.
  - assert (E : x = y).
    { rewrite Hn in Hv. destruct (Qc_ltb y 0%Qc); [|exact Hv].
      apply (f_equal Qcopp) in Hv. rewrite !Qcopp_involutive in Hv. exact Hv. }
    subst y. apply Qc_close_of_Q. split; lra.
  - apply same_digits_close in Hv. apply Qc_close_of_Q.
    rewrite Hn in Hv. destruct (Qc_ltb y 0%Qc).
    + rewrite !this_opp in Hv. split; lra.
    + exact Hv.
Qed.

(** X8.  Two distances with the same rounding key are less than 0.001
    apart. *)
Theorem X8_same_key_within_tolerance :
  forall x y : num,
    toFixed3 x = toFixed3 y ->
    (x - y < thousandth)%Qc /\ (y - x < thousandth)%Qc.
Proof. exact toFixed3_close. Qed.

Lemma X8_witness :
  (Q2Qc (12344 # 10000) - Q2Qc (12336 # 10000) < thousandth)%Qc
  /\ (Q2Qc (12336 # 10000) - Q2Qc (12344 # 10000) < thousandth)%Qc.
Proof.
  apply (X8_same_key_within_tolerance
           (Q2Qc (12344 # 10000)) (Q2Qc (12336 # 10000))).
  vm_compute. reflexivity.
Defined.

(** X9.  Every entry of a site's difference series pairs a record of
    the earlier-year profile with a record of the later-year profile
    less than 0.001 away from it: the entry takes its [distAlong] from
    the earlier-year record and its difference is the later-year
    elevation minus the earlier-year one. *)
Theorem X9_entries_pair_close_records :
  forall (rawData : list Row.t) (s : string),
    In s (map Row.site rawData) ->
    exists res,
      siteResult rawData s = Some res
      /\ forall d,
           In d (differenceSeries res) ->
           exists r1 r2,
             In r1 (Years.y2021 (profiles res))
             /\ In r2 (Years.y2024 (profiles res))
             /\ DiffPt.distAlong d = Row.distAlong r1
             /\ (Row.distAlong r2 - Row.distAlong r1 < thousandth)%Qc
             /\ (Row.distAlong r1 - Row.distAlong r2 < thousandth)%Qc
             /\ DiffPt.difference d
                = Some (Row.elevation r2 - Row.elevation r1)%Qc.
Proof.
  intros rawData s I. exists (expected rawData s).
  split; [apply siteResult_In, I|].
  cbn [expected profiles differenceSeries Years.y2021 Years.y2024].
  unfold arrOf. intros d Hd.
  apply differences_entries in Hd.
  destruct Hd as [r1 [r2 [H1 [H2 [Hx Hdiff]]]]].
  apply lastWithKey_In in H1, H2.
  destruct H1 as [I1 K1], H2 as [I2 K2].
  exists r1, r2. repeat (split; [assumption|]).
  destruct (toFixed3_close (Row.distAlong r2) (Row.distAlong r1)) as [A B];
    [unfold rowKey in K1, K2; congruence|].
  auto.
Qed.

Lemma X9_witness :
  exists res,
    siteResult sampleCollide "AHA" = Some res
    /\ forall d,
         In d (differenceSeries res) ->
         exists r1 r2,
           In r1 (Years.y2021 (profiles res))
           /\ In r2 (Years.y2024 (profiles res))
           /\ DiffPt.distAlong d = Row.distAlong r1
           /\ (Row.distAlong r2 - Row.distAlong r1 < thousandth)%Qc
           /\ (Row.distAlong r1 - Row.distAlong r2 < thousandth)%Qc
           /\ DiffPt.difference d
              = Some (Row.elevation r2 - Row.elevation r1)%Qc.
Proof.
  apply (X9_entries_pair_close_records sampleCollide "AHA").
  simpl. left. reflexivity.
Defined.

Lemma Qc_leb_false (a b : Qc) : Qc_leb a b = false <-> (b < a)%Qc.
Proof.
  unfold Qc_leb. change (b < a)%Qc with (a > b)%Qc. rewrite Qcgt_alt.
  destruct (a ?= b)%Qc; split; congruence.
Qed.

Lemma Qfloor_unit (z : Q) : (0 <= z)%Q -> (z < 1)%Q -> Qfloor z = 0%Z.
Proof.
  intros L U.
  pose proof (Qfloor_le z) as Lf. pose proof (Qlt_floor z) as Uf.
  assert (A : (inject_Z (Qfloor z) < inject_Z 1)%Q) by (change (inject_Z 1) with 1%Q; lra).
  assert (B : (inject_Z 0 < inject_Z (Qfloor z + 1))%Q)
    by (change (inject_Z 0) with 0%Q; lra).
  rewrite <- Zlt_Qlt in A, B. lia.
Qed.

Lemma unmatched_pair_nil (r1 r2 : Row.t) :
  rowKey r1 <> rowKey r2 -> matchedPointsArray [r1] [r2] = [].
Proof.
  intro N. destruct (matchedPointsArray [r1] [r2]) as [|p l] eqn:E; trivial.
  assert (I : In p (matchedPointsArray [r1] [r2])) by (rewrite E; left; reflexivity).
  apply In_matchedPointsArray in I.
  destruct I as [k [a [b [H1 [H2 _]]]]].
  apply lastWithKey_In in H1, H2.
  destruct H1 as [[<-|[]] K1], H2 as [[<-|[]] K2]. congruence.
Qed.


(** ** Further properties of the integral *)

Lemma siteResult_inv rawData s res :
  siteResult rawData s = Some res ->
  In s (map Row.site rawData) /\ res = expected rawData s.
Proof.
  intro H. destruct (in_dec string_dec s (map Row.site rawData)) as [I|N].
  - rewrite (siteResult_In _ _ I) in H. injection H as <-. auto.
  - rewrite (siteResult_notIn _ _ N) in H. discriminate H.
Qed.

Lemma nonneg_mult (u v : Qc) : (0 <= u)%Qc -> (0 <= v)%Qc -> (0 <= u * v)%Qc.
Proof.
  intros Hu Hv. rewrite <- (Qcmult_0_l v). apply Qcmult_le_compat_r; assumption.
Qed.

Lemma trapezoid_zero (a b : Point.t) :
  toNumber (Point.diff a) = 0%Qc -> toNumber (Point.diff b) = 0%Qc ->
  trapezoid a b = 0%Qc.
Proof.
  intros Ha Hb. unfold trapezoid. rewrite Ha, Hb.
  replace (0 + 0)%Qc with 0%Qc by ring. unfold Qcdiv. ring.
Qed.

Lemma trapezoid_nonneg (a b : Point.t) :
  (0 <= toNumber (Point.diff a))%Qc -> (0 <= toNumber (Point.diff b))%Qc ->
  (Point.distAlong a <= Point.distAlong b)%Qc ->
  (0 <= trapezoid a b)%Qc.
Proof.
  intros Ha Hb Hx. unfold trapezoid, Qcdiv.
  apply nonneg_mult; [apply nonneg_mult|].
  - replace 0%Qc with (0 + 0)%Qc by ring. apply Qcplus_le_compat; assumption.
  - unfold Qcle. cbn. discriminate.
  - apply Qcle_minus_iff in Hx. exact Hx.
Qed.

Lemma runFrom_zero todo :
  forall prev,
    toNumber (Point.diff prev) = 0%Qc ->
    (forall p, In p todo -> toNumber (Point.diff p) = 0%Qc) ->
    forall q, In q (runFrom prev 0%Qc todo) -> IntPt.integral q = 0%Qc.
Proof.
  induction todo as [|point todo IH]; intros prev Hp Hall q Hq; [destruct Hq|].
  cbn [runFrom] in Hq.
  assert (Z0 : (0 + trapezoid prev point)%Qc = 0%Qc).
  { rewrite trapezoid_zero; [ring | exact Hp | apply Hall; left; reflexivity]. }
  rewrite Z0 in Hq. destruct Hq as [<-|Hq]; [reflexivity|].
  apply (IH point); trivial.
  - apply Hall. left. reflexivity.
  - intros p Ip. apply Hall. right. exact Ip.
Qed.

Lemma integralOf_zero arr :
  (forall p, In p arr -> toNumber (Point.diff p) = 0%Qc) ->
  forall q, In q (integralOf arr) -> IntPt.integral q = 0%Qc.
Proof.
  destruct arr as [|point todo]; intros Hall q Hq; [destruct Hq|].
  cbn [integralOf] in Hq. destruct Hq as [<-|Hq]; [reflexivity|].
  apply (runFrom_zero todo point); trivial.
  - apply Hall. left. reflexivity.
  - intros p Ip. apply Hall. right. exact Ip.
Qed.

(** X11.  When, for a site, records of the two years with the same
    rounding key always have the same elevation, every difference of
    the site is 0 and every integral is 0. *)
Theorem X11_equal_elevations_give_zero :
  forall (rawData : list Row.t) (s : string) (res : SiteResult),
    siteResult rawData s = Some res ->
    (forall r1 r2,
        In r1 (Years.y2021 (profiles res)) ->
        In r2 (Years.y2024 (profiles res)) ->
        toFixed3 (Row.distAlong r1) = toFixed3 (Row.distAlong r2) ->
        Row.elevation r1 = Row.elevation r2) ->
    (forall d, In d (differenceSeries res) -> DiffPt.difference d = Some 0%Qc)
    /\ (forall q, In q (integralSeries res) -> IntPt.integral q = 0%Qc).
Proof.
  intros rawData s res H Heq.
  apply siteResult_inv in H. destruct H as [_ ->].
  cbn [expected profiles differenceSeries integralSeries Years.y2021 Years.y2024]
    in Heq |- *.
  unfold arrOf.
  assert (D : forall d,
             In d (differences
                     (matchedPointsArray (profileOf rawData s 2021)
                        (profileOf rawData s 2024))) ->
             DiffPt.difference d = Some 0%Qc).
  { intros d Hd. apply differences_entries in Hd.
    destruct Hd as [r1 [r2 [H1 [H2 [_ Hdiff]]]]].
    apply lastWithKey_In in H1, H2.
    destruct H1 as [I1 K1], H2 as [I2 K2].
    rewrite Hdiff, (Heq r1 r2 I1 I2) by (unfold rowKey in K1, K2; congruence).
    f_equal. ring. }
  split; [exact D|].
  apply integralOf_zero. intros p Ip.
  assert (Hd : In (DiffPt.mk (Point.distAlong p) (Point.diff p))
                 (differences
                    (matchedPointsArray (profileOf rawData s 2021)
                       (profileOf rawData s 2024)))).
  { unfold differences. apply in_map_iff. exists p. auto. }
  apply D in Hd. cbn in Hd. rewrite Hd. reflexivity.
Qed.

Lemma X11_witness :
  (forall d,
      In d (differenceSeries (expected sampleUnchanged "AHA")) ->
      DiffPt.difference d = Some 0%Qc)
  /\ (forall q,
        In q (integralSeries (expected sampleUnchanged "AHA")) ->
        IntPt.integral q = 0%Qc).
Proof.
  apply (X11_equal_elevations_give_zero sampleUnchanged "AHA").
  - apply siteResult_In. simpl. left. reflexivity.
  - intros r1 r2 H1 H2 K. vm_compute in H1, H2.
    destruct H1 as [<-|[<-|[]]]; destruct H2 as [<-|[<-|[]]];
      try reflexivity; vm_compute in K; discriminate K.
Defined.

Lemma integralOf_monotone arr :
  StronglySorted (fun a b => (Point.distAlong a <= Point.distAlong b)%Qc) arr ->
  (forall p, In p arr -> (0 <= toNumber (Point.diff p))%Qc) ->
  forall i p0 p1,
    nth_error (integralOf arr) i = Some p0 ->
    nth_error (integralOf arr) (S i) = Some p1 ->
    (IntPt.integral p0 <= IntPt.integral p1)%Qc.
Proof.
  intros Hs Hall i p0 p1 H0 H1.
  assert (L : (S i < length arr)%nat).
  { rewrite <- integralOf_length. apply nth_error_Some. congruence. }
  destruct (nth_error arr i) as [a0|] eqn:A0.
  2:{ apply nth_error_None in A0. lia. }
  destruct (nth_error arr (S i)) as [a1|] eqn:A1.
  2:{ apply nth_error_None in A1. lia. }
  rewrite (integralOf_step arr i a0 a1 p0 p1 A0 A1 H0 H1).
  rewrite <- (Qcplus_0_r (IntPt.integral p0)) at 1.
  apply Qcplus_le_compat; [apply Qcle_refl|].
  apply trapezoid_nonneg.
  - apply Hall. exact (nth_error_In _ _ A0).
  - apply Hall. exact (nth_error_In _ _ A1).
  - exact (StronglySorted_nth _ _ _ Hs i a0 a1 A0 A1).
Qed.

Lemma integralOf_nonneg arr :
  StronglySorted (fun a b => (Point.distAlong a <= Point.distAlong b)%Qc) arr ->
  (forall p, In p arr -> (0 <= toNumber (Point.diff p))%Qc) ->
  forall i q, nth_error (integralOf arr) i = Some q -> (0 <= IntPt.integral q)%Qc.
Proof.
  intros Hs Hall. induction i as [|i IH]; intros q Hq.
  - rewrite (integralOf_first arr q Hq). apply Qcle_refl.
  - destruct (nth_error (integralOf arr) i) as [p0|] eqn:H0.
    2:{ apply nth_error_None in H0.
        assert (S i < length (integralOf arr))%nat
          by (apply nth_error_Some; congruence). lia. }
    apply (Qcle_trans _ (IntPt.integral p0)); [apply IH; reflexivity|].
    exact (integralOf_monotone arr Hs Hall i p0 q H0 Hq).
Qed.

(** X12.  When no difference of a site is negative, its integral
    series never decreases from one entry to the next and is nowhere
    negative. *)
Theorem X12_gain_accumulates :
  forall (rawData : list Row.t) (s : string) (res : SiteResult),
    siteResult rawData s = Some res ->
    (forall d,
        In d (differenceSeries res) ->
        (0 <= toNumber (DiffPt.difference d))%Qc) ->
    (forall i p0 p1,
        nth_error (integralSeries res) i = Some p0 ->
        nth_error (integralSeries res) (S i) = Some p1 ->
        (IntPt.integral p0 <= IntPt.integral p1)%Qc)
    /\ (forall q, In q (integralSeries res) -> (0 <= IntPt.integral q)%Qc).
Proof.
  intros rawData s res H Hpos.
  apply siteResult_inv in H. destruct H as [_ ->].
  cbn [expected differenceSeries integralSeries] in Hpos |- *.
  unfold arrOf in Hpos |- *.
  set (arr := matchedPointsArray (profileOf rawData s 2021)
                (profileOf rawData s 2024)) in *.
  assert (Hs : StronglySorted
                 (fun a b => (Point.distAlong a <= Point.distAlong b)%Qc) arr)
    by apply matchedPointsArray_sorted.
  assert (Hall : forall p, In p arr -> (0 <= toNumber (Point.diff p))%Qc).
  { intros p Ip.
    apply (Hpos (DiffPt.mk (Point.distAlong p) (Point.diff p))).
    unfold differences. apply in_map_iff. exists p. auto. }
  split; [exact (integralOf_monotone arr Hs Hall)|].
  intros q Hq. apply In_nth_error in Hq. destruct Hq as [i Hi].
  exact (integralOf_nonneg arr Hs Hall i q Hi).
Qed.

Lemma X12_witness :
  (forall i p0 p1,
      nth_error (integralSeries (expected sampleSchedule "AHA")) i = Some p0 ->
      nth_error (integralSeries (expected sampleSchedule "AHA")) (S i) = Some p1 ->
      (IntPt.integral p0 <= IntPt.integral p1)%Qc)
  /\ (forall q,
        In q (integralSeries (expected sampleSchedule "AHA")) ->
        (0 <= IntPt.integral q)%Qc).
Proof.
  apply (X12_gain_accumulates sampleSchedule "AHA").
  - apply siteResult_In. simpl. right. left. reflexivity.
  - intros d Hd. vm_compute in Hd.
    destruct Hd as [<-|[<-|[]]]; vm_compute; discriminate.
Defined.

Lemma runFrom_firstn todo :
  forall n prev s,
    runFrom prev s (firstn n todo) = firstn n (runFrom prev s todo).
Proof.
  induction todo as [|point todo IH]; intros [|n] prev s0; cbn; trivial.
  rewrite IH. reflexivity.
Qed.

(** X13.  The integral is a running one: integrating only the first
    [n] matched points gives the first [n] entries of the integral of
    all of them. *)
Theorem X13_integral_of_prefix :
  forall (arr : list Point.t) (n : nat),
    integrate (firstn n arr) = option_map (firstn n) (integrate arr).
Proof.
  intros arr n. rewrite !integrate_integralOf. cbn [option_map]. f_equal.
  destruct arr as [|point todo]; destruct n as [|n]; cbn; trivial.
  rewrite runFrom_firstn. reflexivity.
Qed.

(** ** Site selection *)

Lemma filter_all (A : Type) (f : A -> bool) (l : list A) :
  (forall x, In x l -> f x = true) -> filter f l = l.
Proof.
  induction l as [|a l IH]; intro H; cbn; [reflexivity|].
  rewrite (H a (or_introl eq_refl)), IH; [reflexivity|].
  intros x Ix. apply H. right. exact Ix.
Qed.

Lemma In_remove_site sel site s :
  In s (filter (fun x => negb (String.eqb x site)) sel) <-> In s sel /\ s <> site.
Proof.
  rewrite filter_In, negb_true_iff, String.eqb_neq. tauto.
Qed.

Lemma In_toggleSite sel site s :
  In s (toggleSite sel site)
  <-> (s = site /\ ~ In site sel) \/ (s <> site /\ In s sel).
Proof.
  unfold toggleSite. destruct (includes sel site) eqn:E.
  - apply includes_In in E. rewrite In_remove_site. tauto.
  - apply includes_notIn in E. rewrite in_app_iff. cbn.
    destruct (string_dec s site) as [->|N]; [tauto|].
    split; [intros [I|[Es|[]]]; [tauto|congruence] | tauto].
Qed.

Lemma NoDup_toggleSite sel site : NoDup sel -> NoDup (toggleSite sel site).
Proof.
  intro Hd. unfold toggleSite. destruct (includes sel site) eqn:E.
  - apply NoDup_filter_str, Hd.
  - apply includes_notIn in E.
    apply (Permutation_NoDup (Permutation_cons_append sel site)).
    constructor; assumption.
Qed.

(** X14.  Toggling a site changes the membership of that site only: it
    is selected afterwards exactly when it was not before, and every
    other site stays as it was. *)
Theorem X14_toggle_membership :
  forall (selectedSites : list string) (site s : string),
    In s (toggleSite selectedSites site)
    <-> (s = site /\ ~ In site selectedSites)
        \/ (s <> site /\ In s selectedSites).
Proof. exact In_toggleSite. Qed.

(** X15.  Toggling twice a site that was not selected restores the
    selection; toggling twice a site that was selected leaves the same
    sites selected but moves the site to the end of the selection. *)
Theorem X15_toggle_twice :
  forall (selectedSites : list string) (site : string),
    (~ In site selectedSites ->
     toggleSite (toggleSite selectedSites site) site = selectedSites)
    /\ (In site selectedSites ->
        toggleSite (toggleSite selectedSites site) site
        = filter (fun s => negb (String.eqb s site)) selectedSites ++ [site]).
Proof.
  intros sel site. split; intro H.
  - unfold toggleSite at 2.
    rewrite (proj2 (includes_notIn sel site) H).
    unfold toggleSite.
    assert (I : includes (sel ++ [site]) site = true).
    { apply includes_In, in_app_iff. right. left. reflexivity. }
    rewrite I, filter_app. cbn [filter]. rewrite String.eqb_refl. cbn [negb].
    rewrite app_nil_r. apply filter_all. intros x Ix.
    apply negb_true_iff, String.eqb_neq. congruence.
  - unfold toggleSite at 2.
    rewrite (proj2 (includes_In sel site) H).
    unfold toggleSite.
    assert (N : includes (filter (fun s => negb (String.eqb s site)) sel) site
                = false).
    { apply includes_notIn. rewrite In_remove_site. tauto. }
    rewrite N. reflexivity.
Qed.

Lemma X15_witness :
  toggleSite
    (toggleSite ["AHA"%string; "FAL"%string; "LGR"%string] "AHA") "AHA"
  = filter (fun s => negb (String.eqb s "AHA"))
      ["AHA"%string; "FAL"%string; "LGR"%string]
    ++ ["AHA"%string].
Proof.
  apply (proj2 (X15_toggle_twice
                  ["AHA"%string; "FAL"%string; "LGR"%string] "AHA")).
  left. reflexivity.
Defined.

Lemma onClick_invariant (data : Snapshot) sel c :
  NoDup (sites data) ->
  NoDup sel /\ incl sel (sites data) ->
  NoDup (onClick data sel c) /\ incl (onClick data sel c) (sites data).
Proof.
  intros Hd [Hn Hi]. destruct c as [| |button]; cbn [onClick].
  - split; [exact Hd | apply incl_refl].
  - split; [constructor | intros x []].
  - destruct (nth_error (sites data) button) as [site|] eqn:E; [|auto].
    split; [apply NoDup_toggleSite, Hn|].
    intros x Ix. apply In_toggleSite in Ix.
    destruct Ix as [[-> _]|[_ Ix]]; [exact (nth_error_In _ _ E) | exact (Hi _ Ix)].
Qed.

Lemma selectionAfter_invariant (data : Snapshot) clicks :
  NoDup (sites data) ->
  NoDup (selectionAfter data clicks)
  /\ incl (selectionAfter data clicks) (sites data).
Proof.
  intro Hd. unfold selectionAfter.
  assert (H0 : NoDup (initialSelection (sites data))
               /\ incl (initialSelection (sites data)) (sites data)).
  { destruct (sites data) as [|s0 l]; cbn.
    - split; [constructor | intros x []].
    - split; [constructor; [intros []|constructor]|].
      intros x [<-|[]]. left. reflexivity. }
  revert H0. generalize (initialSelection (sites data)).
  induction clicks as [|c clicks IH]; intros sel H; cbn [fold_left]; [exact H|].
  apply IH, onClick_invariant; assumption.
Qed.

Lemma processData_sites_NoDup rawData snap :
  processData rawData = Some snap -> NoDup (sites snap).
Proof.
  intro E. destruct (processData_total rawData) as [snap' [E' Hs]].
  rewrite E in E'. injection E' as <-.
  rewrite Hs, uniq_firstOccurrences. apply firstOccurrences_NoDup.
Qed.

(** X16.  Whatever buttons are clicked after [processData], the
    selection never names a site twice and never names anything that is
    not in the snapshot's site list. *)
Theorem X16_selection_invariant :
  forall (rawData : list Row.t) (clicks : list Click),
  exists snap,
    processData rawData = Some snap
    /\ NoDup (selectionAfter snap clicks)
    /\ forall s, In s (selectionAfter snap clicks) -> In s (sites snap).
Proof.
  intros rawData clicks.
  destruct (processData_total rawData) as [snap [E _]].
  exists snap. split; [exact E|].
  apply selectionAfter_invariant, (processData_sites_NoDup rawData), E.
Qed.

(** ** The data handed to the charts *)

Lemma processData_entries rawData :
  exists snap,
    processData rawData = Some snap
    /\ forall s,
         In s (sites snap) ->
         get string_dec s (byYearSite snap)
           = Some (Years.mk (profileOf rawData s 2021) (profileOf rawData s 2024))
         /\ get string_dec s (differencesBySite snap)
            = Some (differences (arrOf rawData s))
         /\ get string_dec s (integralBySite snap)
            = Some (integralOf (arrOf rawData s)).
Proof.
  unfold processData.
  destruct (forEach_sites (groupBy groupKey rawData)
              (uniq (map Row.site rawData))
              (mkSnapshot [] [] [] (uniq (map Row.site rawData))))
    as [snap [E [Hs H]]].
  exists snap. split; [exact E|]. intros s I.
  rewrite Hs in I. cbn [sites] in I.
  destruct (H s) as [Hin _]. destruct (Hin I) as [H1 [H2 H3]].
  unfold arrOf. rewrite <- !profile_profileOf. auto.
Qed.

Lemma profileCharts_defined (data : Snapshot) sel :
  (forall s, In s sel -> isSome (get string_dec s (byYearSite data)) = true) ->
  exists charts,
    profileCharts data sel = Some charts /\ map fst charts = sel.
Proof.
  unfold profileCharts. induction sel as [|s sel IH]; intro H.
  - exists []. auto.
  - destruct IH as [charts [E M]].
    { intros x Ix. apply H. right. exact Ix. }
    pose proof (H s (or_introl eq_refl)) as Hs.
    cbn [mapM]. unfold profileChart at 1.
    destruct (get string_dec s (byYearSite data)) as [y|]; [|discriminate Hs].
    cbn [bind]. rewrite E. cbn [bind].
    eexists. split; [reflexivity|]. cbn. congruence.
Qed.

Lemma seriesLines_names (A : Type) (series : Obj string (list A)) sel :
  (forall s, In s sel -> isSome (get string_dec s series) = true) ->
  map (@lineName A) (seriesLines series sel) = sel.
Proof.
  unfold seriesLines. induction sel as [|s sel IH]; intro H; [reflexivity|].
  cbn [flat_map]. pose proof (H s (or_introl eq_refl)) as Hs.
  destruct (get string_dec s series) as [xs|]; [|discriminate Hs].
  cbn [app map lineName]. f_equal.
  apply IH. intros x Ix. apply H. right. exact Ix.
Qed.

(** X17.  Whatever buttons are clicked after [processData], building
    the profile charts does not fail: there is one chart per selected
    site, in selection order, and the difference plot and the integral
    plot each get exactly one line per selected site. *)
Theorem X17_charts_defined_for_selection :
  forall (rawData : list Row.t) (clicks : list Click),
  exists snap charts,
    processData rawData = Some snap
    /\ profileCharts snap (selectionAfter snap clicks) = Some charts
    /\ map fst charts = selectionAfter snap clicks
    /\ map (@lineName DiffPt.t)
         (seriesLines (differencesBySite snap) (selectionAfter snap clicks))
       = selectionAfter snap clicks
    /\ map (@lineName IntPt.t)
         (seriesLines (integralBySite snap) (selectionAfter snap clicks))
       = selectionAfter snap clicks.
Proof.
  intros rawData clicks.
  destruct (processData_entries rawData) as [snap [E H]].
  pose proof (selectionAfter_invariant snap clicks
                (processData_sites_NoDup rawData snap E)) as [_ Hi].
  destruct (profileCharts_defined snap (selectionAfter snap clicks))
    as [charts [Ec Em]].
  { intros s Is. destruct (H s (Hi s Is)) as [-> _]. reflexivity. }
  exists snap, charts. split; [exact E|]. split; [exact Ec|]. split; [exact Em|].
  split; apply seriesLines_names; intros s Is;
    destruct (H s (Hi s Is)) as [_ [H2 H3]]; [rewrite H2 | rewrite H3];
    reflexivity.
Qed.

Lemma append_inj_l (s a b : string) : (s ++ a = s ++ b)%string -> a = b.
Proof.
  induction s as [|c s IH]; cbn; intro H; [exact H|].
  injection H as H. exact (IH H).
Qed.

Lemma yearLine_nil name year rows : yearLine name year rows = [] <-> rows = [].
Proof.
  unfold yearLine. destruct rows; cbn; split; congruence.
Qed.

Lemma yearLine_In name year rows l :
  In l (yearLine name year rows) -> lineName l = name /\ lineData l = rows /\ rows <> [].
Proof.
  unfold yearLine. destruct rows as [|r rows]; cbn; [tauto|].
  intros [<-|[]]. cbn. repeat split. discriminate.
Qed.

Lemma profileOf_nil rawData s y :
  profileOf rawData s y = [] <-> recordsOf rawData s y = [].
Proof.
  unfold profileOf. split; intro H.
  - apply Permutation_nil. rewrite <- H.
    exact (sort_perm _ Row.distAlong (recordsOf rawData s y)).
  - rewrite H. reflexivity.
Qed.

(** X18.  The profile chart of a site draws a line for a year exactly
    when the input has a record of that site and year; a line never has
    empty data, and its data is the profile of its year. *)
Theorem X18_profile_chart_lines :
  forall (rawData : list Row.t) (s : string),
    In s (map Row.site rawData) ->
    exists snap lines res,
      processData rawData = Some snap
      /\ siteResult rawData s = Some res
      /\ profileChart snap s = Some (s, lines)
      /\ (In (s ++ " (2021)")%string (map (@lineName Row.t) lines)
          <-> exists r, In r rawData /\ Row.site r = s /\ Row.year r = 2021%Z)
      /\ (In (s ++ " (2024)")%string (map (@lineName Row.t) lines)
          <-> exists r, In r rawData /\ Row.site r = s /\ Row.year r = 2024%Z)
      /\ forall l,
           In l lines ->
           lineData l <> []
           /\ ((lineName l = (s ++ " (2021)")%string
                /\ lineData l = Years.y2021 (profiles res))
               \/ (lineName l = (s ++ " (2024)")%string
                   /\ lineData l = Years.y2024 (profiles res))).
Proof.
  intros rawData s I.
  destruct (processData_entries rawData) as [snap [E H]].
  assert (Is : In s (sites snap)).
  { destruct (processData_total rawData) as [snap' [E' Hs]].
    rewrite E in E'. injection E' as <-. rewrite Hs. apply In_uniq, I. }
  destruct (H s Is) as [H1 _].
  eexists snap, _, (expected rawData s).
  split; [exact E|]. split; [apply siteResult_In, I|].
  unfold profileChart. rewrite H1. cbn [bind Years.y2021 Years.y2024].
  split; [reflexivity|].
  cbn [expected profiles Years.y2021 Years.y2024].
  assert (R : forall y,
             recordsOf rawData s y <> []
             <-> exists r, In r rawData /\ Row.site r = s /\ Row.year r = y).
  { intro y. split.
    - destruct (recordsOf rawData s y) as [|r l] eqn:Er; [congruence|].
      intros _. exists r. apply recordsOf_In. rewrite Er. left. reflexivity.
    - intros [r Hr] Er. apply recordsOf_In in Hr. rewrite Er in Hr. exact Hr. }
  split; [|split].
  - rewrite <- R, <- profileOf_nil, map_app, in_app_iff, !in_map_iff. split.
    + intros [[l [En Il]]|[l [En Il]]]; apply yearLine_In in Il;
        destruct Il as [Hn [_ Hne]]; [exact Hne|].
      rewrite Hn in En. apply append_inj_l in En. discriminate En.
    + intro Hne. left.
      destruct (yearLine (s ++ " (2021)") 2021 (profileOf rawData s 2021))
        as [|l ls] eqn:Ey.
      * apply yearLine_nil in Ey. contradiction.
      * exists l. split; [|left; reflexivity].
        assert (Il : In l (yearLine (s ++ " (2021)") 2021 (profileOf rawData s 2021)))
          by (rewrite Ey; left; reflexivity).
        apply yearLine_In in Il. tauto.
  - rewrite <- R, <- profileOf_nil, map_app, in_app_iff, !in_map_iff. split.
    + intros [[l [En Il]]|[l [En Il]]]; apply yearLine_In in Il;
        destruct Il as [Hn [_ Hne]]; [|exact Hne].
      rewrite Hn in En. apply append_inj_l in En. discriminate En.
    + intro Hne. right.
      destruct (yearLine (s ++ " (2024)") 2024 (profileOf rawData s 2024))
        as [|l ls] eqn:Ey.
      * apply yearLine_nil in Ey. contradiction.
      * exists l. split; [|left; reflexivity].
        assert (Il : In l (yearLine (s ++ " (2024)") 2024 (profileOf rawData s 2024)))
          by (rewrite Ey; left; reflexivity).
        apply yearLine_In in Il. tauto.
  - intros l Il. apply in_app_iff in Il.
    destruct Il as [Il|Il]; apply yearLine_In in Il;
      destruct Il as [Hn [Hd Hne]]; (split; [congruence|]); [left|right]; auto.
Qed.

Lemma X18_witness :
  exists snap lines res,
    processData sampleSchedule = Some snap
    /\ siteResult sampleSchedule "LGR" = Some res
    /\ profileChart snap "LGR" = Some ("LGR"%string, lines)
    /\ (In ("LGR" ++ " (2021)")%string (map (@lineName Row.t) lines)
        <-> exists r,
             In r sampleSchedule /\ Row.site r = "LGR"%string
             /\ Row.year r = 2021%Z)
    /\ (In ("LGR" ++ " (2024)")%string (map (@lineName Row.t) lines)
        <-> exists r,
             In r sampleSchedule /\ Row.site r = "LGR"%string
             /\ Row.year r = 2024%Z)
    /\ forall l,
         In l lines ->
         lineData l <> []
         /\ ((lineName l = ("LGR" ++ " (2021)")%string
              /\ lineData l = Years.y2021 (profiles res))
             \/ (lineName l = ("LGR" ++ " (2024)")%string
                 /\ lineData l = Years.y2024 (profiles res))).
Proof.
  apply (X18_profile_chart_lines sampleSchedule "LGR").
  simpl. do 6 right. left. reflexivity.
Defined.

(** ** Grouping *)

(** X19.  The group stored under the key of a site and year holds
    exactly the input records of that site and year, in input order,
    whatever characters the site names contain; a key that no record
    has yields the empty list. *)
Theorem X19_group_of_site_year :
  forall (rawData : list Row.t) (s : string) (y : Z),
    orEmpty (get string_dec (siteYearKey s y) (groupBy groupKey rawData))
    = filter (fun r => String.eqb (Row.site r) s && Z.eqb (Row.year r) y)
        rawData.
Proof.
  intros rawData s y. rewrite groupBy_get.
  apply filter_ext. intro r. apply groupKey_eqb.
Qed.

Lemma recordsOf_filter (f : Row.t -> bool) rawData s y :
  (forall r, Row.site r = s -> Row.year r = y -> f r = true) ->
  recordsOf (filter f rawData) s y = recordsOf rawData s y.
Proof.
  intro H. unfold recordsOf. rewrite filter_filter.
  apply filter_ext. intro r.
  destruct (String.eqb_spec (Row.site r) s) as [Es|]; [|reflexivity].
  destruct (Z.eqb_spec (Row.year r) y) as [Ey|]; [|reflexivity].
  rewrite (H r Es Ey). reflexivity.
Qed.

(** X20.  The result of a site depends only on that site's records of
    2021 and 2024: dropping any records of other sites or of other
    years leaves its profiles and both series unchanged. *)
Theorem X20_other_records_do_not_matter :
  forall (rawData : list Row.t) (keep : Row.t -> bool) (s : string),
    (forall r,
        Row.site r = s -> Row.year r = 2021%Z \/ Row.year r = 2024%Z ->
        keep r = true) ->
    In s (map Row.site (filter keep rawData)) ->
    exists res,
      siteResult rawData s = Some res
      /\ siteResult (filter keep rawData) s = Some res.
Proof.
  intros rawData keep s K I.
  assert (I' : In s (map Row.site rawData)).
  { apply in_map_iff in I. destruct I as [r [Er Ir]].
    apply filter_In in Ir. apply in_map_iff. exists r. tauto. }
  exists (expected rawData s). split; [apply siteResult_In, I'|].
  rewrite (siteResult_In _ _ I). f_equal.
  unfold expected, arrOf, profileOf.
  rewrite !recordsOf_filter by (intros; apply K; auto). reflexivity.
Qed.

Lemma X20_witness :
  exists res,
    siteResult sampleSchedule "AHA" = Some res
    /\ siteResult
         (filter (fun r => String.eqb (Row.site r) "AHA") sampleSchedule) "AHA"
       = Some res.
Proof.
  apply (X20_other_records_do_not_matter sampleSchedule
           (fun r => String.eqb (Row.site r) "AHA") "AHA").
  - intros r E _. rewrite E. reflexivity.
  - simpl. left. reflexivity.
Defined.


Lemma X19_witness :
  orEmpty (get string_dec (siteYearKey "A" 2021) (groupBy groupKey sampleUnderscore))
  = [row "A" 2021 0 2].
Proof. exact (X19_group_of_site_year sampleUnderscore "A" 2021). Defined.

(** ** Rounding buckets *)

Lemma this_add (x y : Qc) : (this (x + y)%Qc == this x + this y)%Q.
Proof. unfold Qcplus, Q2Qc. cbn [this]. apply Qred_correct. Qed.

Lemma this_milli (n : Z) : (this (milli n) == inject_Z n * (1 # 1000))%Q.
Proof.
  unfold milli, Q2Qc. cbn [this]. rewrite Qred_correct.
  unfold Qeq, Qmult, inject_Z. cbn. lia.
Qed.

Lemma Qfloor_bucket (z : Q) (n : Z) :
  (inject_Z n <= z)%Q -> (z < inject_Z n + 1)%Q -> Qfloor z = n.
Proof.
  intros L U.
  pose proof (Qfloor_le z) as Lf. pose proof (Qlt_floor z) as Uf.
  rewrite inject_Z_plus in Uf. change (inject_Z 1) with 1%Q in Uf.
  assert (A : (inject_Z (Qfloor z) < inject_Z (n + 1))%Q).
  { rewrite inject_Z_plus. change (inject_Z 1) with 1%Q. lra. }
  assert (B : (inject_Z n < inject_Z (Qfloor z + 1))%Q).
  { rewrite inject_Z_plus. change (inject_Z 1) with 1%Q. lra. }
  rewrite <- Zlt_Qlt in A, B. lia.
Qed.

Lemma inBucket_Q (n : Z) (x : Qc) :
  inBucket n x ->
  (inject_Z n * (1 # 1000) - (1 # 2000) <= this x)%Q
  /\ (this x < inject_Z n * (1 # 1000) + (1 # 2000))%Q.
Proof.
  intros [L U]. unfold Qcle, Qclt in L, U.
  rewrite this_sub, this_milli in L. rewrite this_add, this_milli in U.
  change (this halfThousandth) with (1 # 2000)%Q in L, U. tauto.
Qed.

(** The rounding key of a non-negative distance below 10^21 is the
    number of its bucket. *)
Lemma toFixed3_bucket (n : Z) (x : Qc) :
  (0 <= x)%Qc -> (x < ofZ (10 ^ 21))%Qc -> inBucket n x ->
  toFixed3 x = Digits false n.
Proof.
  intros P B H. apply inBucket_Q in H. destruct H as [L U].
  unfold toFixed3.
  rewrite (proj2 (Qc_ltb_ge x 0%Qc) P).
  rewrite (proj2 (Qc_leb_false (ofZ (10 ^ 21)) x) B).
  f_equal. rewrite (Qfloor_comp _ _ (this_scaled x)).
  apply Qfloor_bucket; lra.
Qed.


(** X10.  Closeness alone does not make two records match: an
    earlier-year record in one rounding bucket and a later-year record
    in the next bucket get different rounding keys and yield no matched
    point, however close to the boundary between the buckets, and so to
    each other, they are. *)
Theorem X10_close_records_can_miss :
  forall (n : Z) (x y e1 e2 : num) (s : string),
    (0 <= x)%Qc -> (y < ofZ (10 ^ 21))%Qc ->
    inBucket n x -> inBucket (n + 1) y ->
    toFixed3 x <> toFixed3 y
    /\ matchedPointsArray [Row.mk s 2021 x e1] [Row.mk s 2024 y e2] = [].
Proof.
  intros n x y e1 e2 s Px By Hx Hy.
  pose proof (inBucket_Q _ _ Hx) as [Lx Ux].
  pose proof (inBucket_Q _ _ Hy) as [Ly Uy].
  rewrite inject_Z_plus in Ly, Uy. change (inject_Z 1) with 1%Q in Ly, Uy.
  unfold Qcle in Px. unfold Qclt in By.
  change (this (Q2Qc 0)) with 0%Q in Px.
  assert (Bx : (x < ofZ (10 ^ 21))%Qc) by (unfold Qclt; lra).
  assert (Py : (0 <= y)%Qc).
  { unfold Qcle. change (this (Q2Qc 0)) with 0%Q. lra. }
  assert (N : toFixed3 x <> toFixed3 y).
  { rewrite (toFixed3_bucket n x), (toFixed3_bucket (n + 1) y); trivial.
    intro H. injection H as H. lia. }
  split; [exact N|]. apply unmatched_pair_nil. exact N.
Qed.

Lemma X10_witness :
  toFixed3 double_below_0_0005 <> toFixed3 double_0_0005
  /\ matchedPointsArray
       [Row.mk "AHA" 2021 double_below_0_0005 (ofZ 10)]
       [Row.mk "AHA" 2024 double_0_0005 (ofZ 11)]
     = [].
Proof.
  apply (X10_close_records_can_miss 0 double_below_0_0005 double_0_0005
           (ofZ 10) (ofZ 11) "AHA").
  - unfold Qcle. simpl. discriminate.
  - reflexivity.
  - split; [unfold Qcle; simpl; discriminate | reflexivity].
  - split; [unfold Qcle; simpl; discriminate | reflexivity].
Defined.


